(** * Autocomplete widget and wrapped form control: a shallow embedding

    The development follows the TypeScript sources:
    - [rxjs/concatLatestFrom.ts]                      (module [Rx])
    - [rxjs/extract-control-changes.ts]               (module [Patch])
    - [simple-autocomplete/simple-autocomplete.component.ts]
                                                      (module [Autocomplete])
    - [simple-autocomplete/wrapped-form-control-superclass.ts]
                                                      (module [Wrapped])

    Streams are push based and single threaded, so a stream operator is
    modelled by what it emits, synchronously, for one arriving value, given
    the slots it has filled so far. *)

From Stdlib Require Import String Ascii List Bool Arith Lia.
From stdpp Require Import base option list strings gmap.
Import ListNotations.

Local Open Scope string_scope.

(** ** JavaScript values of type [string | null | undefined] *)

Module Js.

Inductive StrOrNil : Type :=
| undefined
| null
| str (s : string).

#[export] Instance StrOrNil_eq_dec : EqDecision StrOrNil.
Proof. solve_decision. Defined.

(** [a === b] on such values: no coercion, strings compared by content. *)
Definition strict_eq (a b : StrOrNil) : bool := bool_decide (a = b).


(** [s.toLowerCase()] on text of the ASCII range ([ascii_text]), where
    only [A]..[Z] move. On other text the method of the language folds
    more letters than this function does, so what is stated about letter
    case is stated for ASCII text. *)
Definition lower_ascii (c : ascii) : ascii :=
  let n := nat_of_ascii c in
  if (65 <=? n)%nat && (n <=? 90)%nat then ascii_of_nat (n + 32) else c.

Fixpoint toLowerCase (s : string) : string :=
  match s with
  | EmptyString => EmptyString
  | String c s' => String (lower_ascii c) (toLowerCase s')
  end.

(** [s.startsWith(t)] *)
Fixpoint startsWith (s t : string) : bool :=
  match t, s with
  | EmptyString, _ => true
  | String _ _, EmptyString => false
  | String b t', String a s' => bool_decide (a = b) && startsWith s' t'
  end.

(** [s.includes(t)]: [t] occurs in [s] at some position. *)
Fixpoint includes (s t : string) : bool :=
  startsWith s t ||
  match s with
  | EmptyString => false
  | String _ s' => includes s' t
  end.





End Js.

(** ** The stream primitives the sources use *)

Module Rx.

(** The hot sources of the code base: [new Subject()] hands nothing to a
    subscriber that arrives after an emission, [new ReplaySubject(n)]
    hands it the last [n] values (a buffer size below 1 counts as 1). *)
Inductive SubjectKind : Type :=
| Subject
| ReplaySubject (bufferSize : nat).

Record Source (A : Type) : Type := mkSource {
  kind : SubjectKind;
  emitted : list A       (* every value passed to [next], oldest first *)
}.
Arguments mkSource {A}.
Arguments kind {A}.
Arguments emitted {A}.

(** [subject.next(a)] *)
Definition next {A} (a : A) (s : Source A) : Source A :=
  mkSource (kind s) (emitted s ++ [a]).

Definition lastn {A} (n : nat) (l : list A) : list A :=
  drop (length l - n) l.

(** What [subscribe] delivers before it returns. *)
Definition replay {A} (s : Source A) : list A :=
  match kind s with
  | Subject => []
  | ReplaySubject n => lastn (Nat.max 1 n) (emitted s)
  end.

(** A source that hands late subscribers its most recent values. *)
Definition replaying {A} (s : Source A) : Prop := ∃ n, kind s = ReplaySubject n.

(** [withLatestFrom(...others)] keeps one slot per input. The slots are
    filled by what the inputs deliver; it subscribes to the inputs before
    it subscribes to its source. *)
Definition slot_after_subscribe {A} (s : Source A) : option A :=
  last (replay s).

(** A source value meets the slots: a tuple when all are filled, nothing
    otherwise. *)
Definition withLatestFrom {V A} (slots : list (option A)) (v : V)
  : list (V * list A) :=
  match mapM id slots with
  | Some latest => [(v, latest)]
  | None => []
  end.

(** [of(value).pipe(withLatestFrom(...others))]: subscribe to the others,
    then [of] emits [value] and completes, which ends the subscriptions. *)
Definition of_withLatestFrom {V A} (value : V) (others : list (Source A))
  : list (V * list A) :=
  withLatestFrom (map slot_after_subscribe others) value.

(** The factory of [concatLatestFrom] returns one observable or an array. *)
Inductive Factory (O : Type) : Type :=
| One (o : O)
| Many (os : list O).
Arguments One {O}.
Arguments Many {O}.

Definition observablesAsArray {O} (observables : Factory O) : list O :=
  match observables with
  | One o => [o]
  | Many os => os
  end.

(** [concatLatestFrom(observablesFactory)] for one arriving [value].
    [concatMap] runs one inner observable at a time; the inner one here
    completes inside its own subscription, so each source value is
    handled in full on arrival and nothing is ever waiting. *)
Definition concatLatestFrom {V A}
    (observablesFactory : V -> Factory (Source A)) (value : V)
  : list (V * list A) :=
  let observables := observablesFactory value in
  of_withLatestFrom value (observablesAsArray observables).

(** A timeline: the secondary sources live in a store and are named by
    their position; the factory picks positions. *)
Inductive Event (V A : Type) : Type :=
| PrimaryNext (v : V)
| SecondaryNext (i : nat) (a : A).
Arguments PrimaryNext {V A}.
Arguments SecondaryNext {V A}.

Definition resolve {A} (store : list (Source A)) (i : nat) : Source A :=
  default (mkSource Subject []) (store !! i).

Definition factory_in {V A} (store : list (Source A))
    (factory : V -> Factory nat) (v : V) : Factory (Source A) :=
  match factory v with
  | One i => One (resolve store i)
  | Many ids => Many (map (resolve store) ids)
  end.

Fixpoint run {V A} (factory : V -> Factory nat) (store : list (Source A))
    (events : list (Event V A)) : list (V * list A) :=
  match events with
  | [] => []
  | PrimaryNext v :: rest =>
      concatLatestFrom (factory_in store factory) v ++ run factory store rest
  | SecondaryNext i a :: rest =>
      run factory (alter (next a) i store) rest
  end.

End Rx.

(** ** The autocomplete component *)

Module Autocomplete.
Import Js.

Definition OuterType := StrOrNil.
Definition InnerType := StrOrNil.

Record AutocompleteOption : Type := mkOption {
  value : string;
  label : string;
  preferred : option bool
}.

#[export] Instance AutocompleteOption_eq_dec : EqDecision AutocompleteOption.
Proof. solve_decision. Defined.

(** [options$ = new ReplaySubject<AutocompleteOption[]>(1)] holding the
    assignments made to the [options] input so far. *)
Definition options_subject (assigned : list (list AutocompleteOption))
  : Rx.Source (list AutocompleteOption) :=
  Rx.mkSource (Rx.ReplaySubject 1) assigned.

(** [options.find(x => x.label === value)?.value] *)
Definition matchingOptionValue (options : list AutocompleteOption)
    (v : InnerType) : StrOrNil :=
  match List.find (fun x => strict_eq (str (label x)) v) options with
  | Some x => str (value x)
  | None => undefined
  end.

(** The body of [switchMap] in [innerToOuter]. Both branches are [of(..)],
    which emits and completes at once. *)
Definition innerToOuter_project (allowNonOptionValue : bool)
    (args : InnerType * list (list AutocompleteOption)) : list OuterType :=
  match args with
  | (v, options :: _) =>
      if allowNonOptionValue then [v]
      else
        List.filter (fun x => negb (strict_eq x undefined))
                    [matchingOptionValue options v]
  | (_, []) => []
  end.

(** [innerToOuter] for one inner edit. *)
Definition innerToOuter (allowNonOptionValue : bool)
    (assigned : list (list AutocompleteOption)) (v : InnerType)
  : list OuterType :=
  flat_map (innerToOuter_project allowNonOptionValue)
    (Rx.concatLatestFrom (fun _ => Rx.One (options_subject assigned)) v).

(** The body of [map] in [outerToInner]. *)
Definition outerToInner_project (allowNonOptionValue : bool)
    (args : OuterType * list (list AutocompleteOption)) : list InnerType :=
  match args with
  | (v, options :: _) =>
      match List.find (fun x => strict_eq (str (value x)) v) options with
      | Some foundOption => [str (label foundOption)]
      | None => [if allowNonOptionValue then v else str ""]
      end
  | (_, []) => []
  end.

(** [outerToInner] for one outer value. *)
Definition outerToInner (allowNonOptionValue : bool)
    (assigned : list (list AutocompleteOption)) (v : OuterType)
  : list InnerType :=
  flat_map (outerToInner_project allowNonOptionValue)
    (Rx.concatLatestFrom (fun _ => Rx.One (options_subject assigned)) v).

(** [filterOptions(options, value)] *)
Definition filterOptions (options : list AutocompleteOption)
    (v : InnerType) : list AutocompleteOption :=
  match v with
  | undefined | null => options
  | str text =>
      List.filter
        (fun option => includes (toLowerCase (label option)) (toLowerCase text))
        options
  end.


(** *** The component as a machine

    The instance's mutable state, with the slots of the long lived
    operators of its pipelines, and a log of what it did. *)

Inductive Effect : Type :=
| SetValue (v : InnerType)          (* formControl.setValue(v, { emitEvent: false }) *)
| ValueChanges (v : InnerType)      (* formControl.valueChanges emits v *)
| EmitOutgoingValue (v : OuterType) (* this.emitOutgoingValue(v) *)
| LatestValue (v : OuterType)       (* latestValue$ emits v *)
| FilteredOptions (shown : list AutocompleteOption). (* filteredOptions$ emits *)

#[export] Instance Effect_eq_dec : EqDecision Effect.
Proof. solve_decision. Defined.

(** One subscription to [filteredOptions$] (the template's). *)
Record FilteredOptionsSub : Type := mkSub {
  distinct_last : option StrOrNil;  (* distinctUntilChanged: last value let through *)
  combine_value : option StrOrNil   (* combineLatest: slot of value$ *)
}.

Record State : Type := mkState {
  allowNonOptionValue : bool;
  options_assigned : list (list AutocompleteOption); (* history of options$ *)
  formControl_value : InnerType;
  outer_value : OuterType;                 (* value of the host's control *)
  outerToInner_replay : option InnerType;  (* shareReplay(1) of outerToInner$ *)
  innerToOuter_replay : option OuterType;  (* shareReplay(1) of innerToOuter$ *)
  latestValueLabel_slot : option StrOrNil; (* withLatestFrom slot in handleFocusOut *)
  filteredOptions_sub : option FilteredOptionsSub;
  log : list Effect
}.

(** [new FormControl()] holds [null]; an unset boolean input is falsy. *)
Definition initial : State :=
  mkState false [] null null None None None None [].

Definition set_allowNonOptionValue (b : bool) (st : State) : State :=
  mkState b (options_assigned st) (formControl_value st) (outer_value st)
    (outerToInner_replay st) (innerToOuter_replay st)
    (latestValueLabel_slot st) (filteredOptions_sub st) (log st).

Definition set_options_assigned (h : list (list AutocompleteOption))
    (st : State) : State :=
  mkState (allowNonOptionValue st) h (formControl_value st) (outer_value st)
    (outerToInner_replay st) (innerToOuter_replay st)
    (latestValueLabel_slot st) (filteredOptions_sub st) (log st).

Definition set_formControl_value (v : InnerType) (st : State) : State :=
  mkState (allowNonOptionValue st) (options_assigned st) v (outer_value st)
    (outerToInner_replay st) (innerToOuter_replay st)
    (latestValueLabel_slot st) (filteredOptions_sub st) (log st).

Definition set_outer_value (v : OuterType) (st : State) : State :=
  mkState (allowNonOptionValue st) (options_assigned st)
    (formControl_value st) v
    (outerToInner_replay st) (innerToOuter_replay st)
    (latestValueLabel_slot st) (filteredOptions_sub st) (log st).

Definition set_outerToInner_replay (v : InnerType) (st : State) : State :=
  mkState (allowNonOptionValue st) (options_assigned st)
    (formControl_value st) (outer_value st)
    (Some v) (innerToOuter_replay st)
    (latestValueLabel_slot st) (filteredOptions_sub st) (log st).

Definition set_innerToOuter_replay (v : OuterType) (st : State) : State :=
  mkState (allowNonOptionValue st) (options_assigned st)
    (formControl_value st) (outer_value st)
    (outerToInner_replay st) (Some v)
    (latestValueLabel_slot st) (filteredOptions_sub st) (log st).

Definition set_latestValueLabel_slot (l : StrOrNil) (st : State) : State :=
  mkState (allowNonOptionValue st) (options_assigned st)
    (formControl_value st) (outer_value st)
    (outerToInner_replay st) (innerToOuter_replay st)
    (Some l) (filteredOptions_sub st) (log st).

Definition set_filteredOptions_sub (sub : FilteredOptionsSub) (st : State)
  : State :=
  mkState (allowNonOptionValue st) (options_assigned st)
    (formControl_value st) (outer_value st)
    (outerToInner_replay st) (innerToOuter_replay st)
    (latestValueLabel_slot st) (Some sub) (log st).

Definition record (e : Effect) (st : State) : State :=
  mkState (allowNonOptionValue st) (options_assigned st)
    (formControl_value st) (outer_value st)
    (outerToInner_replay st) (innerToOuter_replay st)
    (latestValueLabel_slot st) (filteredOptions_sub st) (log st ++ [e]).

(** The option set a subscriber of [options$] holds at this moment. The
    [withLatestFrom(this.options$)] and [combineLatest] that stay
    subscribed to the replay subject hold the same value in their slot. *)
Definition current_options (st : State) : option (list AutocompleteOption) :=
  Rx.slot_after_subscribe (options_subject (options_assigned st)).

(** [formControl.setValue(v, { emitEvent: false })]: the value changes,
    [valueChanges] stays silent. *)
Definition formControl_setValue_silently (v : InnerType) (st : State) : State :=
  record (SetValue v) (set_formControl_value v st).

(** [options.find(x => x.value === value)?.label] *)
Definition labelOf (options : list AutocompleteOption) (v : OuterType)
  : StrOrNil :=
  match List.find (fun x => strict_eq (str (value x)) v) options with
  | Some x => str (label x)
  | None => undefined
  end.

(** [latestValueLabel$] for one value of [latestValue$]:
    [withLatestFrom(this.options$)], then the lookup. *)
Definition declareLatestValueLabel (st : State) (v : OuterType) : list StrOrNil :=
  flat_map
    (fun args : OuterType * list (list AutocompleteOption) =>
       match args with
       | (v, options :: _) => [labelOf options v]
       | (_, []) => []
       end)
    (Rx.withLatestFrom [current_options st] v).

(** [combineLatest([value$, options$])] followed by [map(filterOptions)]:
    emits when both slots are filled. *)
Definition declareFilteredOptions_combine (st : State) : State :=
  match filteredOptions_sub st with
  | Some sub =>
      match combine_value sub, current_options st with
      | Some v, Some options => record (FilteredOptions (filterOptions options v)) st
      | _, _ => st
      end
  | None => st
  end.

(** A value reaches [distinctUntilChanged()] of [value$]; when it differs
    from the last one let through it goes on to [combineLatest]. *)
Definition declareFilteredOptions_distinct (x : StrOrNil) (st : State) : State :=
  match filteredOptions_sub st with
  | Some sub =>
      if bool_decide (distinct_last sub = Some x) then st
      else set_filteredOptions_sub (mkSub (Some x) (Some x)) st
  | None => st
  end.

Definition declareFilteredOptions_value (x : StrOrNil) (st : State) : State :=
  match filteredOptions_sub st with
  | Some sub =>
      if bool_decide (distinct_last sub = Some x) then st
      else declareFilteredOptions_combine (declareFilteredOptions_distinct x st)
  | None => st
  end.

(** [latestValue$] emits [v]. Its subscribers, oldest first: the chain of
    [handleFocusOut] (set up in the constructor), then the chain behind
    [filteredOptions$] (set up by the template, if at all). *)
Definition on_latestValue (v : OuterType) (st : State) : State :=
  let st := record (LatestValue v) st in
  let labels := declareLatestValueLabel st v in
  let st := foldl (fun st l => set_latestValueLabel_slot l st) st labels in
  foldl (fun st l => declareFilteredOptions_value l st) st labels.

(** [innerToOuter$] emits [v]: [tap(emitOutgoingValue)], [shareReplay(1)],
    then the subscribers of the shared stream. *)
Definition on_innerToOuter (v : OuterType) (st : State) : State :=
  let st := record (EmitOutgoingValue v) (set_outer_value v st) in
  let st := set_innerToOuter_replay v st in
  on_latestValue v st.

(** [formControl.valueChanges] emits [text] (the user typed, or picked an
    entry of the list, which puts that entry's label in the input).
    Subscribers, oldest first: [innerToOuter$] (super constructor), then
    [inputValues$] behind [filteredOptions$]. *)
Definition on_valueChanges (text : InnerType) (st : State) : State :=
  let st := record (ValueChanges text) (set_formControl_value text st) in
  let outs := innerToOuter (allowNonOptionValue st) (options_assigned st) text in
  let st := foldl (fun st v => on_innerToOuter v st) st outs in
  declareFilteredOptions_value text st.

(** [handleIncomingValue(value)], called by the framework when the host
    assigned [value] to its control: [incomingValues$$.next(value)].
    Subscribers, oldest first: [outerToInner$] (super constructor), then
    [latestValue$]. *)
Definition handleIncomingValue (v : OuterType) (st : State) : State :=
  let st := set_outer_value v st in
  let ins := outerToInner (allowNonOptionValue st) (options_assigned st) v in
  let st :=
    foldl (fun st x => set_outerToInner_replay x (formControl_setValue_silently x st))
          st ins in
  on_latestValue v st.

(** [focusOut$.next()] and the [tap] of [handleFocusOut]. *)
Definition handleFocusOut (st : State) : State :=
  match latestValueLabel_slot st with
  | Some latestValueLabel =>
      if bool_decide (formControl_value st = latestValueLabel) then st
      else formControl_setValue_silently latestValueLabel st
  | None => st
  end.

(** [onEscapePressed()]: [this.focusOut$.next()]. *)
Definition onEscapePressed (st : State) : State := handleFocusOut st.

(** What the focus monitor reports; no origin means focus left. *)
Inductive FocusOrigin : Type := touch | mouse | keyboard | program.

(** The subscriber of [monitorFocusOut]:
    [if (!origin) { this.focusOut$.next(); }]. *)
Definition monitorFocusOut (origin : option FocusOrigin) (st : State) : State :=
  match origin with
  | None => handleFocusOut st
  | Some _ => st
  end.

(** The [options] input is assigned: [options$.next(options)] reaches the
    [combineLatest] of [filteredOptions$]. *)
Definition setOptions (options : list AutocompleteOption) (st : State) : State :=
  declareFilteredOptions_combine
    (set_options_assigned (options_assigned st ++ [options]) st).

(** The template subscribes to [filteredOptions$]. [combineLatest]
    subscribes to [value$] first: [inputValues$] starts with the value
    the control had at construction ([null]), then [latestValueLabel$]
    is fed the replay of [innerToOuter$], if any; [options$] comes last
    and its replay triggers the first emission. *)
Definition subscribeFilteredOptions (st : State) : State :=
  match filteredOptions_sub st with
  | Some _ => st
  | None =>
      let st := set_filteredOptions_sub (mkSub None None) st in
      let st := declareFilteredOptions_distinct null st in
      let labels :=
        match innerToOuter_replay st with
        | Some v => declareLatestValueLabel st v
        | None => []
        end in
      let st := foldl (fun st l => declareFilteredOptions_distinct l st) st labels in
      declareFilteredOptions_combine st
  end.

Inductive Event : Type :=
| SetOptions (options : list AutocompleteOption)
| SetAllowNonOptionValue (b : bool)
| HandleIncomingValue (v : OuterType)
| InnerEdit (text : InnerType)
| FocusMonitor (origin : option FocusOrigin)
| EscapePressed
| SubscribeFilteredOptions.

Definition step (st : State) (e : Event) : State :=
  match e with
  | SetOptions options => setOptions options st
  | SetAllowNonOptionValue b => set_allowNonOptionValue b st
  | HandleIncomingValue v => handleIncomingValue v st
  | InnerEdit text => on_valueChanges text st
  | FocusMonitor origin => monitorFocusOut origin st
  | EscapePressed => onEscapePressed st
  | SubscribeFilteredOptions => subscribeFilteredOptions st
  end.

Definition run (st : State) (events : list Event) : State :=
  foldl step st events.

(** Counting effects in a log. *)
Definition writes (l : list Effect) : list InnerType :=
  omap (fun e => match e with SetValue v => Some v | _ => None end) l.

Definition change_events (l : list Effect) : list InnerType :=
  omap (fun e => match e with ValueChanges v => Some v | _ => None end) l.

Definition outgoing (l : list Effect) : list OuterType :=
  omap (fun e => match e with EmitOutgoingValue v => Some v | _ => None end) l.

Definition filtered_lists (l : list Effect) : list (list AutocompleteOption) :=
  omap (fun e => match e with FilteredOptions o => Some o | _ => None end) l.

(** *** Vocabulary for statements about runs *)

(** [st'] differs from [st] at most in the inner text, the state of the
    list filter, and log entries that are neither writes to the inner
    control nor emissions to the outside. *)
Record quiet (st st' : State) : Prop := mkQuiet {
  quiet_allow : allowNonOptionValue st' = allowNonOptionValue st;
  quiet_options : options_assigned st' = options_assigned st;
  quiet_outer : outer_value st' = outer_value st;
  quiet_slot : latestValueLabel_slot st' = latestValueLabel_slot st;
  quiet_writes : writes (log st') = writes (log st);
  quiet_outgoing : outgoing (log st') = outgoing (log st)
}.

(** The filter's [distinctUntilChanged] last let [x] through (or nobody
    is subscribed to the filtered list). *)
Definition deduplicated (x : StrOrNil) (st : State) : Prop :=
  match filteredOptions_sub st with
  | Some sub => distinct_last sub = Some x
  | None => True
  end.

(** The state in which [handleIncomingValue] hands over to the filter:
    [x] written silently, [v] the latest value, [l] its label. *)
Definition incoming_committed (v x l : StrOrNil) (st : State) : State :=
  set_latestValueLabel_slot l
    (record (LatestValue v)
       (set_outerToInner_replay x
          (formControl_setValue_silently x (set_outer_value v st)))).

(** The state after the inner control took [text] and announced it. *)
Definition edit_committed (text : InnerType) (st : State) : State :=
  record (ValueChanges text) (set_formControl_value text st).

(** The state in which [innerToOuter$] hands over to the filter: [v]
    emitted to the outside and the latest value, [l] its label. *)
Definition outgoing_committed (v l : StrOrNil) (st : State) : State :=
  set_latestValueLabel_slot l
    (record (LatestValue v)
       (set_innerToOuter_replay v
          (record (EmitOutgoingValue v) (set_outer_value v st)))).

(** Modelled from the spec: the component's template is not among the
    sources. Picking an entry of the list puts that entry's label into the
    input, and the inner control announces it like typed text: "selecting
    the option labeled Indonesia causes the outer value to become ID",
    which [innerToOuter] yields for the text Indonesia only. *)
Definition selectOption (o : AutocompleteOption) : Event :=
  InnerEdit (str (label o)).

(** Focus leaves the widget, or escape is pressed. *)
Definition leaves (e : Event) : Prop :=
  e = EscapePressed ∨ e = FocusMonitor None.

(** The options of the test suite and of the demo application. *)
Definition ioOption := mkOption "IO" "British Indian Ocean Territory" (Some false).
Definition inOption := mkOption "IN" "India" (Some false).
Definition idOption := mkOption "ID" "Indonesia" (Some false).
Definition options := [ioOption; inOption; idOption].

End Autocomplete.

(** ** Method interception ([patchObjectMethodWith]) *)

Module Patch.

Section Functions.
(** [World] is everything a call can read or change; [Val] the values
    passed and returned, with the value [undefined] among them. *)
Context {World Val : Type}.
Variable undefined : Val.

Definition ObjRef := nat.

Inductive Completion : Type :=
| Return (v : Val) (w : World)
| Throw (e : Val) (w : World).

(** A function value: called with a [this] (none for a plain call),
    arguments and the world. *)
Definition Function : Type := option ObjRef -> list Val -> World -> Completion.

(** [f.bind(thisArg)] *)
Definition bind (f : Function) (thisArg : ObjRef) : Function :=
  fun _ args w => f (Some thisArg) args w.

(** [function updatedFn(...args) { fn(...args); originalFn(...args); }] *)
Definition updatedFn (fn originalFn : Function) : Function :=
  fun _ args w =>
    match fn None args w with
    | Return _ w1 =>
        match originalFn None args w1 with
        | Return _ w2 => Return undefined w2
        | Throw e w2 => Throw e w2
        end
    | Throw e w1 => Throw e w1
    end.

(** The methods of the object [obj], by name. Reading a missing name
    gives [undefined], whose [.bind] is a [TypeError]: no result. *)
Definition patchObjectMethodWith (obj : ObjRef)
    (methods : gmap string Function) (methodName : string) (fn : Function)
  : option (gmap string Function) :=
  match methods !! methodName with
  | Some method =>
      let originalFn := bind method obj in
      Some (<[methodName := updatedFn fn originalFn]> methods)
  | None => None
  end.

(** [obj.methodName(...args)] *)
Definition invoke (obj : ObjRef) (methods : gmap string Function)
    (methodName : string) (args : list Val) (w : World) : option Completion :=
  match methods !! methodName with
  | Some method => Some (method (Some obj) args w)
  | None => None
  end.
End Functions.

Arguments Completion : clear implicits.
Arguments Function : clear implicits.

(** A small instance to run: the world is a call trace, values are
    numbers with [0] for [undefined]. *)
Definition traced (tag : string) (result : nat) : Function (list string) nat :=
  fun this args w =>
    Return result
      (w ++ [(tag ++ (if this is Some _ then "@obj" else ""))%string])%list.

Definition throwing (tag : string) (error : nat) : Function (list string) nat :=
  fun _ args w => Throw error (w ++ [tag])%list.

Definition demo_methods : gmap string (Function (list string) nat) :=
  {[ "push"%string := traced "original" 7 ]}.

End Patch.

(** ** The wrapped form control superclass *)

Module Wrapped.

(** [ValidationErrors]: an object used as a map from error names. *)
Definition ValidationErrors : Type := gmap string bool.

(** What a validator can read off the control it is given. *)
Record ControlView : Type := mkView {
  view_value : Js.StrOrNil;
  view_disabled : bool
}.

Definition ValidatorFn : Type := ControlView -> option ValidationErrors.

(** [function syncErrorsValidator(errors) { return () => errors; }] *)
Definition syncErrorsValidator (errors : option ValidationErrors) : ValidatorFn :=
  fun _ => errors.

Inductive Status : Type := VALID | INVALID | PENDING | DISABLED.

(** The inner [FormControl], as far as the synchronisation touches it.
    Asynchronous validators are a separate slot of a control; this code
    neither fills nor reads it. *)
Record FormControl : Type := mkControl {
  fc_value : Js.StrOrNil;
  fc_disabled : bool;
  fc_validator : option ValidatorFn;
  fc_errors : option ValidationErrors;
  fc_status : Status
}.

Definition view (fc : FormControl) : ControlView :=
  mkView (fc_value fc) (fc_disabled fc).

(** [formControl.setValidators(v)]: the validator slot is overwritten. *)
Definition setValidators (v : ValidatorFn) (fc : FormControl) : FormControl :=
  mkControl (fc_value fc) (fc_disabled fc) (Some v) (fc_errors fc) (fc_status fc).

(** [formControl.updateValueAndValidity({ onlySelf: true, emitEvent: false })]:
    an enabled control runs its validator and derives its status. *)
Definition updateValueAndValidity (fc : FormControl) : FormControl :=
  if fc_disabled fc then
    mkControl (fc_value fc) true (fc_validator fc) (fc_errors fc) DISABLED
  else
    let errors :=
      match fc_validator fc with
      | Some v => v (view fc)
      | None => None
      end in
    mkControl (fc_value fc) false (fc_validator fc) errors
      (if errors is Some _ then INVALID else VALID).

(** The outer [NgControl] as the superclass reads it. *)
Record NgControl : Type := mkNgControl {
  control : bool;                       (* [ngControl.control] is set *)
  statusChanges : bool;                 (* [ngControl.statusChanges] is set *)
  errors : option ValidationErrors      (* [ngControl.errors] *)
}.

Inductive Target : Type := Inner | Outer.

Inductive Subscribed : Type :=
| OuterToInner
| InnerToOuter
| SyncOuterToInnerErrors
| SyncOuterToInnerTouched
| SyncOuterToInnerDirty.

#[export] Instance Subscribed_eq_dec : EqDecision Subscribed.
Proof. solve_decision. Defined.

Record Component : Type := mkComponent {
  destroyed : bool;                      (* [ngOnDestroy] has run *)
  ngControl : option NgControl;
  formControl : FormControl;
  subscriptions : list Subscribed;       (* handed to [subscribeTo], still live *)
  patched : list (Target * string);      (* methods wrapped so far, in order *)
  detectChanges_calls : nat;
  pending_timeouts : nat                 (* [setTimeout(.., 0)] callbacks not yet run *)
}.

Definition set_formControl (fc : FormControl) (c : Component) : Component :=
  mkComponent (destroyed c) (ngControl c) fc (subscriptions c) (patched c)
    (detectChanges_calls c) (pending_timeouts c).

Definition subscribeTo (s : Subscribed) (c : Component) : Component :=
  mkComponent (destroyed c) (ngControl c) (formControl c)
    (subscriptions c ++ [s]) (patched c)
    (detectChanges_calls c) (pending_timeouts c).

Definition patch (t : Target) (methodName : string) (c : Component) : Component :=
  mkComponent (destroyed c) (ngControl c) (formControl c)
    (subscriptions c) (patched c ++ [(t, methodName)])
    (detectChanges_calls c) (pending_timeouts c).

Definition detectChanges (c : Component) : Component :=
  mkComponent (destroyed c) (ngControl c) (formControl c)
    (subscriptions c) (patched c)
    (S (detectChanges_calls c)) (pending_timeouts c).

(** The [tap] of [syncOuterToInnerErrors], for one status of the outer
    control whose errors are [errors]. *)
Definition syncOuterToInnerErrors_tap (errors : option ValidationErrors) (c : Component)
  : Component :=
  let c := set_formControl (setValidators (syncErrorsValidator errors) (formControl c)) c in
  let c := set_formControl (updateValueAndValidity (formControl c)) c in
  detectChanges c.

(** [syncOuterToInnerErrors]: [startWith(ngControl.status)] makes the
    [tap] run once while subscribing. *)
Definition syncOuterToInnerErrors (c : Component) : Component :=
  match ngControl c with
  | Some ngc =>
      if statusChanges ngc
      then subscribeTo SyncOuterToInnerErrors (syncOuterToInnerErrors_tap (errors ngc) c)
      else c
  | None => c
  end.

Definition has_outer_control (c : Component) : bool :=
  match ngControl c with
  | Some ngc => control ngc
  | None => false
  end.

(** [syncOuterAndInnerTouched]: [extractTouchedChanges] wraps two methods
    of the outer control, then the inner [markAsTouched] is wrapped. *)
Definition syncOuterAndInnerTouched (c : Component) : Component :=
  if has_outer_control c then
    let c := patch Outer "markAsTouched" c in
    let c := patch Outer "markAsUntouched" c in
    let c := patch Inner "markAsTouched" c in
    subscribeTo SyncOuterToInnerTouched c
  else c.

Definition syncOuterAndInnerDirty (c : Component) : Component :=
  if has_outer_control c then
    let c := patch Outer "markAsDirty" c in
    let c := patch Outer "markAsPristine" c in
    let c := patch Inner "markAsDirty" c in
    subscribeTo SyncOuterToInnerDirty c
  else c.

Definition syncOuterToInnerPending (c : Component) : Component :=
  if has_outer_control c then patch Outer "markAsPending" c else c.

(** The callback given to [setTimeout] in [syncOuterAndInnerControls]. *)
Definition syncOuterAndInnerControls_timeout (c : Component) : Component :=
  if negb (has_outer_control c) then c
  else
    let c := syncOuterToInnerErrors c in
    let c := syncOuterAndInnerTouched c in
    let c := syncOuterAndInnerDirty c in
    syncOuterToInnerPending c.

(** [syncOuterAndInnerControls()]: the set up is handed to the scheduler
    by [setTimeout(.., 0)]; the handle is not kept. *)
Definition syncOuterAndInnerControls (c : Component) : Component :=
  mkComponent (destroyed c) (ngControl c) (formControl c) (subscriptions c)
    (patched c) (detectChanges_calls c) (S (pending_timeouts c)).

(** The constructor, for the [NgControl] the injector has or has not:
    [new FormControl()], the two value streams subscribed, the set up
    scheduled. *)
Definition construct (ngc : option NgControl) : Component :=
  syncOuterAndInnerControls
    (subscribeTo InnerToOuter
       (subscribeTo OuterToInner
          (mkComponent false ngc (mkControl Js.null false None None VALID)
             [] [] 0 0))).

Inductive Event : Type :=
| Turn                                               (* the scheduler's next turn *)
| Destroy                                            (* the framework's [ngOnDestroy] *)
| OuterResolved (ngc : NgControl)                    (* the outer binding settles *)
| OuterStatus (errors : option ValidationErrors).    (* [statusChanges] emits *)

(** [ngOnDestroy] belongs to the base class of the library: it ends the
    subscriptions made through [subscribeTo]. No timer is cancelled, the
    handle returned by [setTimeout] is not kept. *)
Definition ngOnDestroy (c : Component) : Component :=
  mkComponent true (ngControl c) (formControl c) [] (patched c)
    (detectChanges_calls c) (pending_timeouts c).

Definition turn (c : Component) : Component :=
  match pending_timeouts c with
  | O => c
  | S n =>
      syncOuterAndInnerControls_timeout
        (mkComponent (destroyed c) (ngControl c) (formControl c)
           (subscriptions c) (patched c) (detectChanges_calls c) n)
  end.

Definition outer_status (errors : option ValidationErrors) (c : Component)
  : Component :=
  let ngc' :=
    match ngControl c with
    | Some ngc => Some (mkNgControl (control ngc) (statusChanges ngc) errors)
    | None => None
    end in
  let c := mkComponent (destroyed c) ngc' (formControl c) (subscriptions c)
             (patched c) (detectChanges_calls c) (pending_timeouts c) in
  if bool_decide (SyncOuterToInnerErrors ∈ subscriptions c)
  then syncOuterToInnerErrors_tap errors c
  else c.

Definition step (c : Component) (e : Event) : Component :=
  match e with
  | Turn => turn c
  | Destroy => ngOnDestroy c
  | OuterResolved ngc =>
      mkComponent (destroyed c) (Some ngc) (formControl c) (subscriptions c)
        (patched c) (detectChanges_calls c) (pending_timeouts c)
  | OuterStatus errors => outer_status errors c
  end.

Definition run (c : Component) (events : list Event) : Component :=
  foldl step c events.

(** *** Vocabulary for statements about the set up *)

(** The same instance, alive or destroyed. *)
Definition set_destroyed (b : bool) (c : Component) : Component :=
  mkComponent b (ngControl c) (formControl c) (subscriptions c) (patched c)
    (detectChanges_calls c) (pending_timeouts c).

(** The same instance with other validators configured on the inner
    control. *)
Definition configured_with (validators : option ValidatorFn) (c : Component)
  : Component :=
  set_formControl
    (mkControl (fc_value (formControl c)) (fc_disabled (formControl c))
       validators (fc_errors (formControl c)) (fc_status (formControl c)))
    c.

(** The methods [syncOuterAndInnerControls_timeout] wraps, in order. *)
Definition setup_patches : list (Target * string) :=
  [(Outer, "markAsTouched"); (Outer, "markAsUntouched"); (Inner, "markAsTouched");
   (Outer, "markAsDirty"); (Outer, "markAsPristine"); (Inner, "markAsDirty");
   (Outer, "markAsPending")].

End Wrapped.

(** ** Touched, dirty and pending synchronisation
    ([extract-control-changes.ts] and the [sync..] methods of the
    superclass) *)

Module Sync.
Import Patch.

(** What is passed to and returned by the [mark..] methods: nothing, or an
    options object with its [onlySelf] and [emitEvent] properties, each
    present or not; and what can be thrown. *)
Inductive Val : Type :=
| undefined
| opts (onlySelf emitEvent : option bool)
| TypeError
| exhausted.

(** [!args?.onlySelf] *)
Definition not_onlySelf (arg : Val) : bool :=
  match arg with
  | opts (Some true) _ => false
  | _ => true
  end.

(** The two controls. *)
Definition outer : ObjRef := 0.
Definition inner : ObjRef := 1.

(** The state the methods act on: the flags of both controls, the last
    value each [distinctUntilChanged()] let through, and how often the
    touch callback of the outside was called. *)
Record World : Type := mkWorld {
  outer_touched : bool;
  inner_touched : bool;
  outer_dirty : bool;
  inner_dirty : bool;
  outer_pending : bool;
  inner_pending : bool;
  touched_last : option bool;
  dirty_last : option bool;
  onTouched_calls : nat
}.

#[export] Instance World_eq_dec : EqDecision World.
Proof. solve_decision. Defined.

Definition set_touched (r : ObjRef) (b : bool) (w : World) : World :=
  if Nat.eqb r outer then
    mkWorld b (inner_touched w) (outer_dirty w) (inner_dirty w)
      (outer_pending w) (inner_pending w) (touched_last w) (dirty_last w)
      (onTouched_calls w)
  else if Nat.eqb r inner then
    mkWorld (outer_touched w) b (outer_dirty w) (inner_dirty w)
      (outer_pending w) (inner_pending w) (touched_last w) (dirty_last w)
      (onTouched_calls w)
  else w.

Definition set_dirty (r : ObjRef) (b : bool) (w : World) : World :=
  if Nat.eqb r outer then
    mkWorld (outer_touched w) (inner_touched w) b (inner_dirty w)
      (outer_pending w) (inner_pending w) (touched_last w) (dirty_last w)
      (onTouched_calls w)
  else if Nat.eqb r inner then
    mkWorld (outer_touched w) (inner_touched w) (outer_dirty w) b
      (outer_pending w) (inner_pending w) (touched_last w) (dirty_last w)
      (onTouched_calls w)
  else w.

Definition set_pending (r : ObjRef) (b : bool) (w : World) : World :=
  if Nat.eqb r outer then
    mkWorld (outer_touched w) (inner_touched w) (outer_dirty w) (inner_dirty w)
      b (inner_pending w) (touched_last w) (dirty_last w) (onTouched_calls w)
  else if Nat.eqb r inner then
    mkWorld (outer_touched w) (inner_touched w) (outer_dirty w) (inner_dirty w)
      (outer_pending w) b (touched_last w) (dirty_last w) (onTouched_calls w)
  else w.

Definition set_touched_last (b : bool) (w : World) : World :=
  mkWorld (outer_touched w) (inner_touched w) (outer_dirty w) (inner_dirty w)
    (outer_pending w) (inner_pending w) (Some b) (dirty_last w)
    (onTouched_calls w).

Definition set_dirty_last (b : bool) (w : World) : World :=
  mkWorld (outer_touched w) (inner_touched w) (outer_dirty w) (inner_dirty w)
    (outer_pending w) (inner_pending w) (touched_last w) (Some b)
    (onTouched_calls w).

Definition count_onTouched (w : World) : World :=
  mkWorld (outer_touched w) (inner_touched w) (outer_dirty w) (inner_dirty w)
    (outer_pending w) (inner_pending w) (touched_last w) (dirty_last w)
    (S (onTouched_calls w)).

(** The methods of a control before any patch, as the forms library has
    them: each sets a flag of the control it is called on. They read
    [this], so an unbound call fails. *)
Definition flag_method (set : ObjRef -> bool -> World -> World) (b : bool)
  : Function World Val :=
  fun this args w =>
    match this with
    | Some r => Return undefined (set r b w)
    | None => Throw TypeError w
    end.

(** The method tables of both controls as the callbacks find them when
    they call back into a control, and the subscribers of the outer
    control's [statusChanges]. Nothing in these sources subscribes to the
    [statusChanges] of the inner control. *)
Record Tables : Type := mkTables {
  outer_methods : gmap string (Function World Val);
  inner_methods : gmap string (Function World Val);
  outer_statusChanges : list (World -> Completion World Val)
}.

(** The first argument of a call, [undefined] when there is none. *)
Definition first_arg (args : list Val) : Val :=
  match args with
  | arg :: _ => arg
  | [] => undefined
  end.

(** [opts.emitEvent !== false] *)
Definition emits (arg : Val) : bool :=
  match arg with
  | opts _ (Some false) => false
  | _ => true
  end.

(** [statusChanges.emit(status)]: the subscribers run in order. *)
Fixpoint emit (subscribers : list (World -> Completion World Val)) (w : World)
  : Completion World Val :=
  match subscribers with
  | [] => Return undefined w
  | subscriber :: rest =>
      match subscriber w with
      | Return _ w' => emit rest w'
      | Throw e w' => Throw e w'
      end
  end.

(** [markAsPending(opts)] as the forms library has it: the status of the
    control becomes pending, then its [statusChanges] emits unless
    [emitEvent] is false. *)
Definition markAsPending (seen : Tables) : Function World Val :=
  fun this args w =>
    match this with
    | Some r =>
        let w := set_pending r true w in
        if emits (first_arg args) && Nat.eqb r outer then
          match emit (outer_statusChanges seen) w with
          | Return _ w' => Return undefined w'
          | Throw e w' => Throw e w'
          end
        else Return undefined w
    | None => Throw TypeError w
    end.

(** The methods of a control before any patch. The four that mark a
    control touched or dirty raise no status change. *)
Definition control_methods (seen : Tables) : gmap string (Function World Val) :=
  {[ "markAsTouched" := flag_method set_touched true;
     "markAsUntouched" := flag_method set_touched false;
     "markAsDirty" := flag_method set_dirty true;
     "markAsPristine" := flag_method set_dirty false;
     "markAsPending" := markAsPending seen ]}.

(** [control.methodName(...args)] from inside a callback; a name that is
    not there is a [TypeError]. *)
Definition call (obj : ObjRef) (methods : gmap string (Function World Val))
    (methodName : string) (args : list Val) (w : World) : Completion World Val :=
  match invoke obj methods methodName args w with
  | Some completion => completion
  | None => Throw TypeError w
  end.

(** [extractMethodsIntoObservable(control, methods)]: each listed method,
    in the order of the keys, is patched with [() => changes$.next(emitValue)].
    [next] is what the subject's subscriber does with a value. A listed
    method that is missing ends the loop with a [TypeError], the patches
    made so far stay. *)
Fixpoint extractMethodsIntoObservable (control : ObjRef)
    (table : gmap string (Function World Val))
    (methods : list (string * bool))
    (next : bool -> World -> Completion World Val)
  : gmap string (Function World Val) * bool :=
  match methods with
  | [] => (table, true)
  | (methodName, emitValue) :: rest =>
      match patchObjectMethodWith undefined control table methodName
              (fun _ _ w => next emitValue w) with
      | Some table' => extractMethodsIntoObservable control table' rest next
      | None => (table, false)
      end
  end.

(** [distinctUntilChanged()] in front of a subscriber. *)
Definition distinctUntilChanged (last : World -> option bool)
    (set_last : bool -> World -> World)
    (subscriber : bool -> World -> Completion World Val)
    (b : bool) (w : World) : Completion World Val :=
  if bool_decide (last w = Some b) then Return undefined w
  else subscriber b (set_last b w).

(** [extractTouchedChanges(control)] with the subscriber of its result. *)
Definition extractTouchedChanges (control : ObjRef)
    (table : gmap string (Function World Val))
    (subscriber : bool -> World -> Completion World Val)
  : gmap string (Function World Val) * bool :=
  extractMethodsIntoObservable control table
    [("markAsTouched", true); ("markAsUntouched", false)]
    (distinctUntilChanged touched_last set_touched_last subscriber).

(** [extractDirtyChanges(control)] with the subscriber of its result. *)
Definition extractDirtyChanges (control : ObjRef)
    (table : gmap string (Function World Val))
    (subscriber : bool -> World -> Completion World Val)
  : gmap string (Function World Val) * bool :=
  extractMethodsIntoObservable control table
    [("markAsDirty", true); ("markAsPristine", false)]
    (distinctUntilChanged dirty_last set_dirty_last subscriber).

(** [this.onTouched()]: the callback the forms library registered on the
    value accessor; it marks the outer control as touched. *)
Definition onTouched (seen : Tables) (w : World) : Completion World Val :=
  call outer (outer_methods seen) "markAsTouched" [] (count_onTouched w).

(** The [tap] of [syncOuterToInnerTouched$]. *)
Definition syncOuterToInnerTouched (seen : Tables) (isTouched : bool)
    (w : World) : Completion World Val :=
  if isTouched
  then call inner (inner_methods seen) "markAsTouched" [opts (Some true) None] w
  else call inner (inner_methods seen) "markAsUntouched" [opts (Some true) None] w.

(** The [tap] of [syncOuterToInnerDirty$]. *)
Definition syncOuterToInnerDirty (seen : Tables) (isDirty : bool)
    (w : World) : Completion World Val :=
  if isDirty
  then call inner (inner_methods seen) "markAsDirty" [opts (Some true) None] w
  else call inner (inner_methods seen) "markAsPristine" [opts (Some true) None] w.

(** The [tap] of [syncOuterToInnerErrors$], run for each status change of
    the outer control: the inner control gets the validator that returns
    the outer errors, and [updateValueAndValidity({ onlySelf: true,
    emitEvent: false })] works its status out anew from it. The inner
    control has no asynchronous validator, so its status is then valid,
    invalid or disabled: it is not pending, whatever it was before. The
    errors themselves are followed in [Wrapped]; this world holds the
    flags only. *)
Definition syncOuterToInnerErrors_tap (w : World) : Completion World Val :=
  Return undefined (set_pending inner false w).

(** [syncOuterToInnerErrors()]: the tap is subscribed to the
    [statusChanges] of the outer control. *)
Definition syncOuterToInnerErrors (seen now : Tables) : option Tables :=
  Some (mkTables (outer_methods now) (inner_methods now)
          (outer_statusChanges now ++ [syncOuterToInnerErrors_tap])%list).

(** [syncOuterAndInnerTouched()] on the tables [now], with callbacks that
    will find the tables [seen]. *)
Definition syncOuterAndInnerTouched (seen now : Tables) : option Tables :=
  let '(outer', complete) :=
    extractTouchedChanges outer (outer_methods now)
      (syncOuterToInnerTouched seen) in
  if complete then
    inner' ← patchObjectMethodWith undefined inner (inner_methods now)
               "markAsTouched"
               (fun _ args w =>
                  if not_onlySelf (first_arg args) then onTouched seen w
                  else Return undefined w);
    Some (mkTables outer' inner' (outer_statusChanges now))
  else None.

(** [syncOuterAndInnerDirty()] *)
Definition syncOuterAndInnerDirty (seen now : Tables) : option Tables :=
  let '(outer', complete) :=
    extractDirtyChanges outer (outer_methods now)
      (syncOuterToInnerDirty seen) in
  if complete then
    inner' ← patchObjectMethodWith undefined inner (inner_methods now)
               "markAsDirty"
               (fun _ args w =>
                  if not_onlySelf (first_arg args)
                  then call outer (outer_methods seen) "markAsDirty" [] w
                  else Return undefined w);
    Some (mkTables outer' inner' (outer_statusChanges now))
  else None.

(** [syncOuterToInnerPending()] *)
Definition syncOuterToInnerPending (seen now : Tables) : option Tables :=
  outer' ← patchObjectMethodWith undefined outer (outer_methods now)
             "markAsPending"
             (fun _ _ w =>
                call inner (inner_methods seen) "markAsPending"
                  [opts (Some true) (Some false)] w);
  Some (mkTables outer' (inner_methods now) (outer_statusChanges now)).

(** The four set ups in the order of the deferred callback, starting
    from unpatched controls without subscribers. *)
Definition setup (seen : Tables) : option Tables :=
  now ← syncOuterToInnerErrors seen
          (mkTables (control_methods seen) (control_methods seen) []);
  now ← syncOuterAndInnerTouched seen now;
  now ← syncOuterAndInnerDirty seen now;
  syncOuterToInnerPending seen now.

(** The callbacks find the very tables the set up produces. The nesting
    of calls is followed to a depth: at depth 0 every method and every
    subscriber gives up. *)
Definition gives_up : Function World Val := fun _ _ w => Throw exhausted w.

Definition no_methods : gmap string (Function World Val) :=
  {[ "markAsTouched" := gives_up; "markAsUntouched" := gives_up;
     "markAsDirty" := gives_up; "markAsPristine" := gives_up;
     "markAsPending" := gives_up ]}.

Definition nothing_seen : Tables :=
  mkTables no_methods no_methods [fun w => Throw exhausted w].

Fixpoint tables (depth : nat) : Tables :=
  match depth with
  | O => nothing_seen
  | S d => default nothing_seen (setup (tables d))
  end.

(** A call from outside on one of the controls. *)
Inductive Call : Type :=
| OuterCall (methodName : string) (args : list Val)
| InnerCall (methodName : string) (args : list Val).

Definition perform (depth : nat) (c : Call) (w : World) : Completion World Val :=
  match c with
  | OuterCall methodName args =>
      call outer (outer_methods (tables depth)) methodName args w
  | InnerCall methodName args =>
      call inner (inner_methods (tables depth)) methodName args w
  end.

(** A series of calls; the first that throws ends it. *)
Fixpoint perform_all (depth : nat) (calls : list Call) (w : World)
  : Completion World Val :=
  match calls with
  | [] => Return undefined w
  | c :: rest =>
      match perform depth c w with
      | Return _ w' => perform_all depth rest w'
      | Throw e w' => Throw e w'
      end
  end.

(** Calls that come from the outside of the widget: the host marks its
    control, or the user's interaction marks the inner control without
    options. *)
Definition from_host (c : Call) : Prop :=
  c = OuterCall "markAsTouched" [] ∨ c = OuterCall "markAsUntouched" []
  ∨ c = InnerCall "markAsTouched" [].

(** The touched flags of both controls are what the stream of touched
    changes last passed on, if it passed anything. *)
Definition touched_mirrored (w : World) : Prop :=
  ∀ b, touched_last w = Some b → inner_touched w = b ∧ outer_touched w = b.

Definition world0 : World :=
  mkWorld false false false false false false None None 0.

End Sync.

(** ** Vocabulary for whole runs of the autocomplete *)

Module Runs.
Import Js Autocomplete.

(** The texts of the inner edits among some events. *)
Definition edits (events : list Event) : list InnerType :=
  omap (fun e => match e with InnerEdit text => Some text | _ => None end) events.

(** The option sets assigned by some events. *)
Definition assignments (events : list Event) : list (list AutocompleteOption) :=
  omap (fun e => match e with SetOptions options => Some options | _ => None end)
       events.

(** Events that may write to the inner control: a value from outside, an
    escape, a report of the focus monitor. *)
Definition may_write (e : Event) : bool :=
  match e with
  | HandleIncomingValue _ | EscapePressed | FocusMonitor _ => true
  | _ => false
  end.

(** Events that keep free values disallowed. *)
Definition keeps_strict (e : Event) : bool :=
  match e with
  | SetAllowNonOptionValue true => false
  | _ => true
  end.

(** A step that leaves alone everything but the filter and its output. *)
Definition silent (st st' : State) : Prop :=
  quiet st st'
  ∧ formControl_value st' = formControl_value st
  ∧ change_events (log st') = change_events (log st).

(** The list last handed to the template is the filter of the current
    options by the text that last passed the deduplication. *)
Definition shows_filtered (st : State) : Prop :=
  match filteredOptions_sub st with
  | Some sub =>
      combine_value sub = distinct_last sub
      ∧ ∀ x options,
          combine_value sub = Some x →
          current_options st = Some options →
          last (filtered_lists (log st)) = Some (filterOptions options x)
  | None => True
  end.

End Runs.

(** ** Enabling and disabling the inner control ([setDisabledState]) *)

Module Disabling.
Import Wrapped.

(** [formControl.disable({ emitEvent: false })]: the control is disabled
    and holds no errors. *)
Definition disable (fc : FormControl) : FormControl :=
  mkControl (fc_value fc) true (fc_validator fc) None DISABLED.

(** [formControl.enable({ emitEvent: false })]: the control is enabled and
    validated again. *)
Definition enable (fc : FormControl) : FormControl :=
  updateValueAndValidity
    (mkControl (fc_value fc) false (fc_validator fc) (fc_errors fc) VALID).

(** [setDisabledState(isDisabled)] on an instance whose [isDisabled] field
    holds [this_isDisabled]: the inner control is switched, then the
    superclass is called with [this.isDisabled]. The result is the
    instance and the argument handed to the superclass. *)
Definition setDisabledState (isDisabled : bool) (this_isDisabled : bool)
    (c : Component) : Component * bool :=
  let c :=
    if isDisabled
    then set_formControl (disable (formControl c)) c
    else set_formControl (enable (formControl c)) c in
  (c, this_isDisabled).

(** The set up wrapped nothing yet, or everything once. *)
Definition wrapped_at_most_once (c : Component) : Prop :=
  (pending_timeouts c = 1 ∧ patched c = [])
  ∨ (pending_timeouts c = 0 ∧ (patched c = [] ∨ patched c = setup_patches)).

End Disabling.

(** ** The logging operator ([log$]) *)

Module Log.

(** Values of any kind, as far as their truthiness and identity go.
    Numbers are integers here. *)
Inductive Any : Type :=
| a_undefined
| a_null
| a_bool (b : bool)
| a_num (z : Z)
| a_str (s : string)
| a_obj (id : nat).

(** [if (x)] *)
Definition truthy (x : Any) : bool :=
  match x with
  | a_undefined | a_null => false
  | a_bool b => b
  | a_num z => negb (Z.eqb z 0)
  | a_str s => negb (String.eqb s "")
  | a_obj _ => true
  end.

(** The inner function [log(event, data)]: the arguments it hands to
    [console.log]. An absent [info] is [a_undefined], an absent
    [predicateFn] is [None]. *)
Definition log (info : Any) (predicateFn : option (Any -> Any))
    (event : string) (data : Any) : list Any :=
  let args := [a_str event] in
  let args := if truthy info then info :: args else args in
  if negb (String.eqb event "tap.complete") then
    let toLog :=
      match predicateFn with
      | Some f => f data
      | None => data
      end in
    (args ++ [toLog])%list
  else args.

(** What travels on a stream. *)
Inductive Notification : Type :=
| Next (x : Any)
| Error (x : Any)
| Complete.

(** [log$(info, predicateFn)] applied to the notifications of its source:
    the lines written to the console and the notifications passed on.
    [tap] calls the handler and passes the notification on; an error or a
    completion ends the stream. *)
Fixpoint log_ (info : Any) (predicateFn : option (Any -> Any))
    (source : list Notification) : list (list Any) * list Notification :=
  match source with
  | [] => ([], [])
  | Next x :: rest =>
      let '(lines, passed) := log_ info predicateFn rest in
      (log info predicateFn "tap.next" x :: lines, Next x :: passed)
  | Error x :: _ => ([log info predicateFn "tap.error" x], [Error x])
  | Complete :: _ => ([log info predicateFn "tap.complete" a_undefined], [Complete])
  end.

(** The notifications a subscriber of the source itself would get. *)
Fixpoint delivered (source : list Notification) : list Notification :=
  match source with
  | [] => []
  | Next x :: rest => Next x :: delivered rest
  | Error x :: _ => [Error x]
  | Complete :: _ => [Complete]
  end.

(** The line expected for a notification. *)
Definition line_for (info : Any) (predicateFn : option (Any -> Any))
    (n : Notification) : list Any :=
  ((if truthy info then [info] else [])
   ++ match n with
      | Next x => [a_str "tap.next"; default id predicateFn x]
      | Error x => [a_str "tap.error"; default id predicateFn x]
      | Complete => [a_str "tap.complete"]
      end)%list.

End Log.

(** ** Vocabulary for timelines of [concatLatestFrom] *)

Module Timeline.

(** The values of the primary stream among some events. *)
Definition primaries {V A} (events : list (Rx.Event V A)) : list V :=
  omap (fun e => match e with Rx.PrimaryNext v => Some v | _ => None end) events.

End Timeline.

(** * Properties *)

(** Settle a decidable closed statement by evaluation. *)
Ltac decide_by_computing :=
  refine (bool_decide_unpack _ _); vm_compute; exact I.

(** ** [concatLatestFrom] *)

Section RxFacts.
Import Rx.
Context {V A : Type}.
Implicit Types (s : Source A) (l : list A).

Lemma last_lastn n l : (0 < n)%nat → last (lastn n l) = last l.
Proof.
  intros Hn. unfold lastn.
  rewrite !last_lookup, lookup_drop, length_drop. f_equal.
  destruct l as [|x l']; simpl; lia.
Qed.

Lemma slot_replaying s : replaying s → slot_after_subscribe s = last (emitted s).
Proof.
  intros [n Hk]. unfold slot_after_subscribe, replay. rewrite Hk.
  apply last_lastn. lia.
Qed.

Lemma slot_plain s : kind s = Subject → slot_after_subscribe s = None.
Proof. intros Hk. unfold slot_after_subscribe, replay. by rewrite Hk. Qed.

Lemma slot_not_emitted s : emitted s = [] → slot_after_subscribe s = None.
Proof.
  intros He. unfold slot_after_subscribe, replay, lastn.
  destruct (kind s); [done|]. by rewrite He.
Qed.

Lemma mapM_id_fmap {B} (f : B → option A) (k : list B) :
  mapM id (map f k) = mapM f k.
Proof. induction k as [|b k IH]; simpl; [done|]. by rewrite IH. Qed.

Lemma of_withLatestFrom_eq (v : V) (others : list (Source A)) :
  of_withLatestFrom v others =
    match mapM slot_after_subscribe others with
    | Some latest => [(v, latest)]
    | None => []
    end.
Proof. unfold of_withLatestFrom, withLatestFrom. by rewrite mapM_id_fmap. Qed.

(** Every input already has a value for a late subscriber: one tuple. *)
Lemma of_withLatestFrom_all (v : V) (others : list (Source A)) :
  Forall replaying others →
  Forall (λ s, emitted s ≠ []) others →
  ∃ latest,
    Forall2 (λ s a, last (emitted s) = Some a) others latest
    ∧ of_withLatestFrom v others = [(v, latest)].
Proof.
  intros Hr He. rewrite of_withLatestFrom_eq.
  destruct (mapM slot_after_subscribe others) as [latest|] eqn:Hm.
  - exists latest. split; [|done].
    apply mapM_Some in Hm.
    induction Hm as [|s a others' latest' Hsa _ IH]; [constructor|].
    inversion Hr; inversion He; subst.
    constructor; [|by apply IH].
    by rewrite <- slot_replaying.
  - exfalso. apply mapM_None in Hm.
    induction Hm as [s others' Hs|s others' _ IH];
      inversion Hr; inversion He; subst; [|by apply IH].
    rewrite slot_replaying in Hs by done.
    by apply last_None in Hs.
Qed.

(** One input without a value: nothing. *)
Lemma of_withLatestFrom_missing (v : V) (others : list (Source A)) :
  Exists (λ s, slot_after_subscribe s = None) others →
  of_withLatestFrom v others = [].
Proof.
  intros Hm. rewrite of_withLatestFrom_eq.
  by rewrite (mapM_None_2 _ _ Hm).
Qed.

(** A plain subject among the inputs silences the operator, whatever it
    emitted before. *)
Lemma concatLatestFrom_plain_subject
    (factory : V → Factory (Source A)) (v : V) :
  Exists (λ s, kind s = Subject) (observablesAsArray (factory v)) →
  concatLatestFrom factory v = [].
Proof.
  intros He. unfold concatLatestFrom. apply of_withLatestFrom_missing.
  eapply Exists_impl; [exact He|]. intros s. apply slot_plain.
Qed.

(** A secondary emission alone yields no output. *)
Lemma run_secondary_silent (factory : V → Factory nat)
    (store : list (Source A)) i a :
  run factory store [SecondaryNext i a] = [].
Proof. reflexivity. Qed.

(** C5, as amended: for secondary sources that replay their latest value
    to a new subscriber, a primary value [v] is paired at once with the
    latest value of every secondary source when each has emitted; for any
    sources, it is dropped when one of them has not emitted, and a dropped
    value leaves no trace in the rest of the run, so it is not kept for
    later; a plain subject among the secondary sources makes the operator
    drop [v] whatever that subject emitted before. *)
Theorem concatLatestFrom_gated_by_primary
    (factory : V → Factory nat) (store : list (Source A)) (v : V)
    (rest : list (Event V A)) :
  let sources := observablesAsArray (factory_in store factory v) in
  (Forall replaying sources →
   Forall (λ s, emitted s ≠ []) sources →
     ∃ latest,
       Forall2 (λ s a, last (emitted s) = Some a) sources latest
       ∧ concatLatestFrom (factory_in store factory) v = [(v, latest)]
       ∧ run factory store (PrimaryNext v :: rest)
         = (v, latest) :: run factory store rest)
  ∧ (Exists (λ s, emitted s = []) sources →
       concatLatestFrom (factory_in store factory) v = []
       ∧ run factory store (PrimaryNext v :: rest) = run factory store rest)
  ∧ (Exists (λ s, kind s = Subject) sources →
       concatLatestFrom (factory_in store factory) v = []
       ∧ run factory store (PrimaryNext v :: rest) = run factory store rest).
Proof.
  intros sources. split; [|split].
  - intros Hr He.
    destruct (of_withLatestFrom_all v sources Hr He) as (latest & Hl & Ho).
    exists latest. split; [done|]. simpl. unfold concatLatestFrom.
    fold sources. by rewrite Ho.
  - intros He.
    assert (Ho : of_withLatestFrom v sources = []).
    { apply of_withLatestFrom_missing.
      eapply Exists_impl; [exact He|]. intros s. apply slot_not_emitted. }
    simpl. unfold concatLatestFrom. fold sources. by rewrite Ho.
  - intros He.
    pose proof (concatLatestFrom_plain_subject (factory_in store factory) v He)
      as Ho.
    simpl. by rewrite Ho.
Qed.

End RxFacts.

(** The claim read for any source fails on a plain [Subject] that has
    emitted: the operator subscribes anew for each primary value and a
    plain subject hands a new subscriber nothing. *)
Lemma concatLatestFrom_plain_subject_drops :
  let secondary := Rx.mkSource Rx.Subject [1; 2] in
  Rx.emitted secondary ≠ []
  ∧ Rx.concatLatestFrom (fun _ : nat => Rx.One secondary) 5 = [].
Proof. split; [discriminate | reflexivity]. Qed.

Lemma concatLatestFrom_gated_by_primary_witness :
  let store := [Rx.mkSource (Rx.ReplaySubject 1) [1; 2];
                Rx.mkSource (Rx.ReplaySubject 1) []] in
  Rx.run (fun _ : nat => Rx.One 0%nat) store
      [Rx.PrimaryNext 5; Rx.SecondaryNext 0%nat 3; Rx.PrimaryNext 6]
    = [(5, [2]); (6, [3])]
  ∧ Rx.run (fun _ : nat => Rx.Many [0%nat; 1%nat]) store
      [Rx.PrimaryNext 5; Rx.SecondaryNext 1%nat 9; Rx.PrimaryNext 6]
    = [(6, [2; 9])].
Proof.
  split.
  - destruct (concatLatestFrom_gated_by_primary
                (fun _ : nat => Rx.One 0%nat)
                [Rx.mkSource (Rx.ReplaySubject 1) [1; 2];
                 Rx.mkSource (Rx.ReplaySubject 1) []] 5
                [Rx.SecondaryNext 0%nat 3; Rx.PrimaryNext 6])
      as [Hemit _].
    destruct Hemit as (latest & Hl & _ & Hrun).
    + repeat constructor. by exists 1%nat.
    + repeat constructor. discriminate.
    + rewrite Hrun.
      inversion Hl as [|? ? ? ? Hx Hrest]; subst.
      inversion Hrest; subst. simpl in Hx. injection Hx as <-. reflexivity.
  - destruct (concatLatestFrom_gated_by_primary
                (fun _ : nat => Rx.Many [0%nat; 1%nat])
                [Rx.mkSource (Rx.ReplaySubject 1) [1; 2];
                 Rx.mkSource (Rx.ReplaySubject 1) []] 5
                [Rx.SecondaryNext 1%nat 9; Rx.PrimaryNext 6])
      as (_ & Hdrop & _).
    destruct Hdrop as [_ Hrun].
    + apply Exists_cons_tl, Exists_cons_hd. reflexivity.
    + rewrite Hrun. reflexivity.
Defined.

(** ** The value translations of the autocomplete *)

Section TranslationFacts.
Import Js Autocomplete.
Implicit Types (options : list AutocompleteOption) (o x : AutocompleteOption).
Implicit Types (assigned : list (list AutocompleteOption)).

Lemma strict_eq_true (a b : StrOrNil) : strict_eq a b = true ↔ a = b.
Proof. unfold strict_eq. by rewrite bool_decide_eq_true. Qed.

Lemma strict_eq_false (a b : StrOrNil) : strict_eq a b = false ↔ a ≠ b.
Proof. unfold strict_eq. by rewrite bool_decide_eq_false. Qed.

(** [find] returns the first element that passes. *)
Lemma find_first {B} (p : B → bool) (before after : list B) (b : B) :
  (∀ y, y ∈ before → p y = false) → p b = true →
  List.find p (before ++ b :: after) = Some b.
Proof.
  intros Hb Hp. induction before as [|y before IH]; simpl.
  - by rewrite Hp.
  - rewrite (Hb y) by apply list_elem_of_here.
    apply IH. intros z Hz. apply Hb. by apply list_elem_of_further.
Qed.

Lemma find_none {B} (p : B → bool) (l : list B) :
  (∀ y, y ∈ l → p y = false) → List.find p l = None.
Proof.
  intros Hl. induction l as [|y l IH]; simpl; [done|].
  rewrite (Hl y) by apply list_elem_of_here.
  apply IH. intros z Hz. apply Hl. by apply list_elem_of_further.
Qed.

Lemma find_agree {B} (p q : B → bool) (l : list B) :
  (∀ y, p y = q y) → List.find p l = List.find q l.
Proof.
  intros Hpq. induction l as [|y l IH]; simpl; [done|].
  by rewrite Hpq, IH.
Qed.

(** When a key is unique in the list, [find] by that key returns the
    very element that carries it. *)
Lemma find_unique {B K} `{EqDecision K} (key : B → K) (l : list B) (b : B) :
  NoDup (map key l) → b ∈ l →
  List.find (λ y, bool_decide (key y = key b)) l = Some b.
Proof.
  intros Hnd Hin.
  apply list_elem_of_split in Hin as (before & after & ->).
  apply find_first; [|by apply bool_decide_eq_true].
  intros y Hy. apply bool_decide_eq_false. intros Heq.
  rewrite map_app in Hnd. simpl in Hnd.
  apply NoDup_app in Hnd as (_ & Hdisj & _).
  apply (Hdisj (key y)).
  - apply list_elem_of_fmap. by exists y.
  - rewrite Heq. apply list_elem_of_here.
Qed.

(** [concatLatestFrom(() => this.options$)] sees the last assignment. *)
Lemma concatLatestFrom_options assigned (v : StrOrNil) :
  Rx.concatLatestFrom (fun _ => Rx.One (options_subject assigned)) v
  = match last assigned with
    | Some options => [(v, [options])]
    | None => []
    end.
Proof.
  unfold Rx.concatLatestFrom. rewrite of_withLatestFrom_eq. simpl.
  rewrite slot_replaying by (by exists 1%nat). simpl.
  by destruct (last assigned).
Qed.

Lemma innerToOuter_eq allow assigned text :
  innerToOuter allow assigned text
  = match last assigned with
    | Some options =>
        if allow then [text]
        else match matchingOptionValue options text with
             | undefined => []
             | found => [found]
             end
    | None => []
    end.
Proof.
  unfold innerToOuter. rewrite concatLatestFrom_options.
  destruct (last assigned) as [options|]; [|done]. simpl.
  destruct allow; [done|].
  rewrite app_nil_r. by destruct (matchingOptionValue options text).
Qed.

Lemma outerToInner_eq allow assigned v :
  outerToInner allow assigned v
  = match last assigned with
    | Some options =>
        match List.find (fun x => strict_eq (str (value x)) v) options with
        | Some foundOption => [str (label foundOption)]
        | None => [if allow then v else str ""]
        end
    | None => []
    end.
Proof.
  unfold outerToInner. rewrite concatLatestFrom_options.
  destruct (last assigned) as [options|]; [|done]. simpl.
  by rewrite app_nil_r.
Qed.

(** Before the first assignment of [options] both translations are
    silent, whatever [allowNonOptionValue] says. *)
Lemma translations_silent_without_options allow v :
  innerToOuter allow [] v = [] ∧ outerToInner allow [] v = [].
Proof. by rewrite innerToOuter_eq, outerToInner_eq. Qed.

Lemma innerToOuter_no_label assigned options text :
  last assigned = Some options →
  (∀ x, x ∈ options → str (label x) ≠ text) →
  innerToOuter false assigned text = [].
Proof.
  intros Hcur Hno. rewrite innerToOuter_eq, Hcur. unfold matchingOptionValue.
  rewrite find_none; [done|].
  intros y Hy. apply strict_eq_false. by apply Hno.
Qed.

Lemma innerToOuter_first_label assigned options before o after text :
  last assigned = Some options →
  options = (before ++ o :: after)%list →
  str (label o) = text →
  (∀ x, x ∈ before → str (label x) ≠ text) →
  innerToOuter false assigned text = [str (value o)].
Proof.
  intros Hcur -> Hlab Hbefore.
  rewrite innerToOuter_eq, Hcur. unfold matchingOptionValue.
  rewrite find_first; [done| |by apply strict_eq_true].
  intros y Hy. apply strict_eq_false. by apply Hbefore.
Qed.

Lemma innerToOuter_unique_label assigned options o :
  last assigned = Some options →
  NoDup (map label options) → o ∈ options →
  innerToOuter false assigned (str (label o)) = [str (value o)].
Proof.
  intros Hcur Hnd Hin.
  apply list_elem_of_split in Hin as Hsplit.
  destruct Hsplit as (before & after & Heq).
  apply (innerToOuter_first_label assigned options before o after);
    [done|done|done|].
  intros x Hx [= Hlab]. subst options.
  rewrite map_app in Hnd. simpl in Hnd.
  apply NoDup_app in Hnd as (_ & Hdisj & _).
  apply (Hdisj (label x)).
  - apply list_elem_of_fmap. by exists x.
  - rewrite Hlab. apply list_elem_of_here.
Qed.

Lemma innerToOuter_free assigned options text :
  last assigned = Some options → innerToOuter true assigned text = [text].
Proof. intros Hcur. by rewrite innerToOuter_eq, Hcur. Qed.

(** C1, as amended: with a current option set, and free values not
    allowed, an edit whose text is no option's label emits nothing and an
    edit whose text is a label emits the value of the first option, in
    list order, that carries this label (which is the option meant when
    labels are unique); with free values allowed the text is emitted as
    it is. *)
Theorem innerToOuter_first_label_match allow assigned options text :
  last assigned = Some options →
  (allow = false →
     (∀ x, x ∈ options → str (label x) ≠ text) →
     innerToOuter allow assigned text = [])
  ∧ (allow = false →
     ∀ before o after,
       options = (before ++ o :: after)%list →
       str (label o) = text →
       (∀ x, x ∈ before → str (label x) ≠ text) →
       innerToOuter allow assigned text = [str (value o)])
  ∧ (allow = false →
     NoDup (map label options) →
     ∀ o, o ∈ options → str (label o) = text →
       innerToOuter allow assigned text = [str (value o)])
  ∧ (allow = true → innerToOuter allow assigned text = [text]).
Proof.
  intros Hcur. repeat split.
  - intros ->. by apply (innerToOuter_no_label assigned options).
  - intros -> before o after. by apply innerToOuter_first_label.
  - intros -> Hnd o Hin <-. by apply (innerToOuter_unique_label assigned options).
  - intros ->. by apply (innerToOuter_free assigned options).
Qed.

(** C2: with a current option set whose values are unique, an outer value
    that is some option's value becomes that option's label; one that is
    no option's value stays as it is when free values are allowed and
    becomes the empty string when they are not. *)
Theorem outerToInner_label_or_fallback allow assigned options v :
  last assigned = Some options →
  NoDup (map value options) →
  (∀ o, o ∈ options → str (value o) = v →
     outerToInner allow assigned v = [str (label o)])
  ∧ ((∀ x, x ∈ options → str (value x) ≠ v) →
     outerToInner allow assigned v = [if allow then v else str ""]).
Proof.
  intros Hcur Hnd. rewrite outerToInner_eq, Hcur. split.
  - intros o Hin <-.
    assert (Hfind : List.find (λ x, strict_eq (str (value x)) (str (value o)))
                      options = Some o).
    { rewrite <- (find_unique value options o Hnd Hin).
      apply find_agree. intros x. unfold strict_eq.
      apply bool_decide_ext. split; congruence. }
    by rewrite Hfind.
  - intros Hno. rewrite find_none; [done|].
    intros y Hy. apply strict_eq_false. by apply Hno.
Qed.

End TranslationFacts.

(** Two options may share a label while their values differ: the edit
    then yields the first one's value, not the value of every option that
    carries the label. *)
Lemma innerToOuter_duplicate_label :
  let first := Autocomplete.mkOption "A" "X" None in
  let second := Autocomplete.mkOption "B" "X" None in
  NoDup (map Autocomplete.value [first; second])
  ∧ second ∈ [first; second]
  ∧ Js.str (Autocomplete.label second) = Js.str "X"
  ∧ Autocomplete.innerToOuter false [[first; second]] (Js.str "X")
    = [Js.str "A"]
  ∧ Autocomplete.innerToOuter false [[first; second]] (Js.str "X")
    ≠ [Js.str (Autocomplete.value second)].
Proof.
  simpl. repeat split; try (vm_compute; congruence).
  - decide_by_computing.
  - apply list_elem_of_further, list_elem_of_here.
Qed.

Lemma innerToOuter_first_label_match_witness :
  Autocomplete.innerToOuter false [Autocomplete.options] (Js.str "asd") = []
  ∧ Autocomplete.innerToOuter false [Autocomplete.options] (Js.str "Indonesia")
    = [Js.str "ID"]
  ∧ Autocomplete.innerToOuter true [Autocomplete.options] (Js.str "asd")
    = [Js.str "asd"].
Proof.
  split; [|split].
  - destruct (innerToOuter_first_label_match false [Autocomplete.options]
                Autocomplete.options (Js.str "asd") eq_refl) as (Hnone & _).
    apply Hnone; [reflexivity|].
    apply Forall_forall. repeat constructor; discriminate.
  - destruct (innerToOuter_first_label_match false [Autocomplete.options]
                Autocomplete.options (Js.str "Indonesia") eq_refl)
      as (_ & _ & Huniq & _).
    apply (Huniq eq_refl ltac:(decide_by_computing) Autocomplete.idOption);
      [|reflexivity].
    do 2 apply list_elem_of_further. apply list_elem_of_here.
  - destruct (innerToOuter_first_label_match true [Autocomplete.options]
                Autocomplete.options (Js.str "asd") eq_refl) as (_ & _ & _ & Hfree).
    by apply Hfree.
Defined.

Lemma outerToInner_label_or_fallback_witness :
  Autocomplete.outerToInner false [Autocomplete.options] (Js.str "IN")
    = [Js.str "India"]
  ∧ Autocomplete.outerToInner false [Autocomplete.options] (Js.str "zz")
    = [Js.str ""]
  ∧ Autocomplete.outerToInner true [Autocomplete.options] (Js.str "zz")
    = [Js.str "zz"].
Proof.
  assert (Hnd : NoDup (map Autocomplete.value Autocomplete.options)).
  { decide_by_computing. }
  assert (Hzz : ∀ x, x ∈ Autocomplete.options →
                     Js.str (Autocomplete.value x) ≠ Js.str "zz").
  { apply Forall_forall. repeat constructor; discriminate. }
  split; [|split].
  - destruct (outerToInner_label_or_fallback false [Autocomplete.options]
                Autocomplete.options (Js.str "IN") eq_refl Hnd) as (Hfound & _).
    apply (Hfound Autocomplete.inOption); [|reflexivity].
    apply list_elem_of_further, list_elem_of_here.
  - destruct (outerToInner_label_or_fallback false [Autocomplete.options]
                Autocomplete.options (Js.str "zz") eq_refl Hnd) as (_ & Hnone).
    by apply Hnone.
  - destruct (outerToInner_label_or_fallback true [Autocomplete.options]
                Autocomplete.options (Js.str "zz") eq_refl Hnd) as (_ & Hnone).
    by apply Hnone.
Defined.

(** ** The option filter *)

Section FilterFacts.
Import Js Autocomplete.







End FilterFacts.


(** ** Runs of the autocomplete *)

Section MachineFacts.
Import Js Autocomplete.
Implicit Types (st : State) (v x text : StrOrNil).
Implicit Types (options : list AutocompleteOption) (o : AutocompleteOption).

Lemma current_options_last st : current_options st = last (options_assigned st).
Proof. unfold current_options. apply slot_replaying. by exists 1%nat. Qed.

Lemma latestValueLabel_eq st v :
  declareLatestValueLabel st v
  = match current_options st with
    | Some options => [labelOf options v]
    | None => []
    end.
Proof.
  unfold declareLatestValueLabel, Rx.withLatestFrom. simpl.
  by destruct (current_options st).
Qed.

Lemma writes_snoc l e :
  writes (l ++ [e]) = (writes l ++ writes [e])%list.
Proof. apply omap_app. Qed.

Lemma change_events_snoc l e :
  change_events (l ++ [e]) = (change_events l ++ change_events [e])%list.
Proof. apply omap_app. Qed.

Lemma outgoing_snoc l e :
  outgoing (l ++ [e]) = (outgoing l ++ outgoing [e])%list.
Proof. apply omap_app. Qed.

Lemma filtered_lists_snoc l e :
  filtered_lists (l ++ [e]) = (filtered_lists l ++ filtered_lists [e])%list.
Proof. apply omap_app. Qed.

Lemma writes_snoc2 l l' : writes (l ++ l') = (writes l ++ writes l')%list.
Proof. apply omap_app. Qed.

Lemma change_events_snoc2 l l' :
  change_events (l ++ l') = (change_events l ++ change_events l')%list.
Proof. apply omap_app. Qed.

Lemma outgoing_snoc2 l l' : outgoing (l ++ l') = (outgoing l ++ outgoing l')%list.
Proof. apply omap_app. Qed.

Lemma filtered_lists_snoc2 l l' :
  filtered_lists (l ++ l') = (filtered_lists l ++ filtered_lists l')%list.
Proof. apply omap_app. Qed.

Lemma quiet_refl st : quiet st st.
Proof. by constructor. Qed.

Lemma quiet_trans st1 st2 st3 : quiet st1 st2 → quiet st2 st3 → quiet st1 st3.
Proof. intros [] []. constructor; congruence. Qed.

(** The filter reacts to a value: nothing but the filter and its output
    moves. *)
Lemma declareFilteredOptions_value_quiet x st :
  quiet st (declareFilteredOptions_value x st)
  ∧ formControl_value (declareFilteredOptions_value x st) = formControl_value st
  ∧ change_events (log (declareFilteredOptions_value x st)) = change_events (log st).
Proof.
  unfold declareFilteredOptions_value, declareFilteredOptions_combine, declareFilteredOptions_distinct, current_options.
  destruct st as [a h f ov o2i i2o slot [sub|] lg]; simpl;
    [|by repeat split].
  destruct (bool_decide _); simpl; [by repeat split|].
  destruct (Rx.slot_after_subscribe _); simpl; [|by repeat split].
  repeat split; simpl;
    by rewrite ?writes_snoc, ?outgoing_snoc, ?change_events_snoc, ?app_nil_r.
Qed.

Lemma declareFilteredOptions_value_deduplicated x st : deduplicated x (declareFilteredOptions_value x st).
Proof.
  unfold deduplicated, declareFilteredOptions_value, declareFilteredOptions_combine, declareFilteredOptions_distinct,
    current_options.
  destruct st as [a h f ov o2i i2o slot [sub|] lg]; simpl; [|done].
  destruct (bool_decide _) eqn:Hd; simpl.
  - by apply bool_decide_eq_true in Hd.
  - by destruct (Rx.slot_after_subscribe _).
Qed.

Lemma declareFilteredOptions_value_repeat x st : deduplicated x st → declareFilteredOptions_value x st = st.
Proof.
  unfold deduplicated, declareFilteredOptions_value.
  destruct (filteredOptions_sub st) as [sub|]; [|done].
  intros ->. by rewrite bool_decide_true.
Qed.

(** [latestValue$] emits while an option set is current. *)
Lemma on_latestValue_eq st v options :
  current_options st = Some options →
  on_latestValue v st
  = declareFilteredOptions_value (labelOf options v)
      (set_latestValueLabel_slot (labelOf options v) (record (LatestValue v) st)).
Proof.
  intros Hcur. unfold on_latestValue.
  rewrite latestValueLabel_eq.
  replace (current_options (record (LatestValue v) st)) with (Some options)
    by (rewrite <- Hcur; by destruct st).
  reflexivity.
Qed.

(** [handleIncomingValue] while an option set is current: one silent
    write of the translated value, then the latest value and its label. *)
Lemma handleIncomingValue_eq st v options :
  current_options st = Some options →
  ∃ written,
    outerToInner (allowNonOptionValue st) (options_assigned st) v = [written]
    ∧ handleIncomingValue v st
      = declareFilteredOptions_value (labelOf options v)
          (set_latestValueLabel_slot (labelOf options v)
             (record (LatestValue v)
                (set_outerToInner_replay written
                   (formControl_setValue_silently written
                      (set_outer_value v st))))).
Proof.
  intros Hcur. rewrite current_options_last in Hcur.
  assert (∃ written,
    outerToInner (allowNonOptionValue st) (options_assigned st) v = [written])
    as [written Hw].
  { rewrite outerToInner_eq, Hcur. destruct (List.find _ _); eauto. }
  exists written. split; [done|].
  unfold handleIncomingValue. cbn zeta.
  replace (allowNonOptionValue (set_outer_value v st))
    with (allowNonOptionValue st) by by destruct st.
  replace (options_assigned (set_outer_value v st))
    with (options_assigned st) by by destruct st.
  rewrite Hw. simpl.
  apply on_latestValue_eq.
  rewrite current_options_last. by destruct st.
Qed.

Lemma incoming_committed_fields v x l st :
  log (incoming_committed v x l st) = (log st ++ [SetValue x; LatestValue v])%list
  ∧ formControl_value (incoming_committed v x l st) = x
  ∧ outer_value (incoming_committed v x l st) = v
  ∧ latestValueLabel_slot (incoming_committed v x l st) = Some l
  ∧ filteredOptions_sub (incoming_committed v x l st) = filteredOptions_sub st.
Proof. destruct st. cbn. by rewrite <- app_assoc. Qed.

Lemma handleIncomingValue_without_options st v :
  current_options st = None →
  handleIncomingValue v st = record (LatestValue v) (set_outer_value v st).
Proof.
  intros Hcur. rewrite current_options_last in Hcur.
  unfold handleIncomingValue. cbn zeta.
  replace (allowNonOptionValue (set_outer_value v st))
    with (allowNonOptionValue st) by by destruct st.
  replace (options_assigned (set_outer_value v st))
    with (options_assigned st) by by destruct st.
  rewrite outerToInner_eq, Hcur. simpl.
  unfold on_latestValue. rewrite latestValueLabel_eq.
  assert (current_options (record (LatestValue v) (set_outer_value v st)) = None)
    as -> by (rewrite current_options_last; by destruct st).
  reflexivity.
Qed.

Lemma handleIncomingValue_frame st v :
  allowNonOptionValue (handleIncomingValue v st) = allowNonOptionValue st
  ∧ options_assigned (handleIncomingValue v st) = options_assigned st.
Proof.
  destruct (current_options st) as [options|] eqn:Hcur.
  - destruct (handleIncomingValue_eq st v options Hcur) as (w & _ & ->).
    destruct (declareFilteredOptions_value_quiet (labelOf options v)
      (set_latestValueLabel_slot (labelOf options v)
         (record (LatestValue v)
            (set_outerToInner_replay w
               (formControl_setValue_silently w (set_outer_value v st))))))
      as ([Ha Ho _ _ _ _] & _).
    rewrite Ha, Ho. by destruct st.
  - rewrite (handleIncomingValue_without_options st v Hcur). by destruct st.
Qed.

(** C3, as amended: while an option set is current, each of two
    consecutive calls of [handleIncomingValue] with the same value writes
    the translated text to the inner control, so there are two writes of
    the same text; neither raises an inner change event. What is
    deduplicated is the text that drives the list filter: the second call
    makes no new filtered list. Before the first option set is assigned
    the calls write nothing. *)
Theorem handleIncomingValue_same_value_twice st v :
  let st1 := step st (HandleIncomingValue v) in
  let st2 := step st1 (HandleIncomingValue v) in
  (∀ options,
     current_options st = Some options →
     ∃ written,
       outerToInner (allowNonOptionValue st) (options_assigned st) v = [written]
       ∧ writes (log st1) = (writes (log st) ++ [written])%list
       ∧ writes (log st2) = (writes (log st) ++ [written; written])%list
       ∧ formControl_value st2 = written
       ∧ change_events (log st2) = change_events (log st)
       ∧ filtered_lists (log st2) = filtered_lists (log st1))
  ∧ (current_options st = None →
       writes (log st2) = writes (log st)
       ∧ formControl_value st2 = formControl_value st).
Proof.
  cbn zeta. cbn [step].
  set (st1 := handleIncomingValue v st).
  destruct (handleIncomingValue_frame st v) as [Hallow Hopts].
  fold st1 in Hallow, Hopts.
  split.
  - intros options Hcur.
    destruct (handleIncomingValue_eq st v options Hcur) as (w & Hw & Hst1).
    fold st1 in Hst1.
    assert (Hcur1 : current_options st1 = Some options).
    { rewrite current_options_last, Hopts. by rewrite <- current_options_last. }
    destruct (handleIncomingValue_eq st1 v options Hcur1) as (w' & Hw' & Hst2).
    rewrite Hallow, Hopts, Hw in Hw'. injection Hw' as <-.
    exists w. split; [done|].
    set (l := labelOf options v) in *.
    fold (incoming_committed v w l st) in Hst1.
    fold (incoming_committed v w l st1) in Hst2.
    destruct (incoming_committed_fields v w l st) as (Hlog1 & _).
    destruct (incoming_committed_fields v w l st1)
      as (Hlog2 & Hfc2 & _ & _ & Hsub2).
    assert (Hd : deduplicated l (incoming_committed v w l st1)).
    { unfold deduplicated. rewrite Hsub2.
      change (deduplicated l st1).
      rewrite Hst1. apply declareFilteredOptions_value_deduplicated. }
    rewrite (declareFilteredOptions_value_repeat _ _ Hd) in Hst2.
    destruct (declareFilteredOptions_value_quiet l (incoming_committed v w l st))
      as ([_ _ _ _ Hwr _] & _ & Hce).
    rewrite <- Hst1, Hlog1 in Hwr, Hce.
    rewrite writes_snoc2 in Hwr. rewrite change_events_snoc2 in Hce.
    cbn in Hwr, Hce. rewrite app_nil_r in Hce.
    split; [done|].
    rewrite Hst2, Hlog2, Hfc2.
    rewrite writes_snoc2, change_events_snoc2, filtered_lists_snoc2, Hwr, Hce.
    cbn. rewrite !app_nil_r, <- app_assoc. by repeat split.
  - intros Hcur.
    assert (Hcur1 : current_options st1 = None).
    { rewrite current_options_last, Hopts. by rewrite <- current_options_last. }
    rewrite (handleIncomingValue_without_options st1 v Hcur1).
    subst st1. rewrite (handleIncomingValue_without_options st v Hcur).
    destruct st. cbn. rewrite !writes_snoc2. cbn. by rewrite !app_nil_r.
Qed.

Lemma edit_committed_fields text st :
  log (edit_committed text st) = (log st ++ [ValueChanges text])%list
  ∧ formControl_value (edit_committed text st) = text
  ∧ outer_value (edit_committed text st) = outer_value st
  ∧ latestValueLabel_slot (edit_committed text st) = latestValueLabel_slot st
  ∧ allowNonOptionValue (edit_committed text st) = allowNonOptionValue st
  ∧ options_assigned (edit_committed text st) = options_assigned st.
Proof. by destruct st. Qed.

Lemma outgoing_committed_fields v l st :
  log (outgoing_committed v l st)
    = (log st ++ [EmitOutgoingValue v; LatestValue v])%list
  ∧ formControl_value (outgoing_committed v l st) = formControl_value st
  ∧ outer_value (outgoing_committed v l st) = v
  ∧ latestValueLabel_slot (outgoing_committed v l st) = Some l
  ∧ allowNonOptionValue (outgoing_committed v l st) = allowNonOptionValue st
  ∧ options_assigned (outgoing_committed v l st) = options_assigned st.
Proof. destruct st. cbn. by rewrite <- app_assoc. Qed.

(** An edit that [innerToOuter] drops. *)
Lemma on_valueChanges_dropped st text :
  innerToOuter (allowNonOptionValue st) (options_assigned st) text = [] →
  on_valueChanges text st = declareFilteredOptions_value text (edit_committed text st).
Proof.
  intros Hdrop. unfold on_valueChanges. cbn zeta.
  fold (edit_committed text st).
  destruct (edit_committed_fields text st) as (_ & _ & _ & _ & -> & ->).
  by rewrite Hdrop.
Qed.

(** An edit that [innerToOuter] turns into the outer value [v]. *)
Lemma on_valueChanges_emitted st text v options :
  current_options st = Some options →
  innerToOuter (allowNonOptionValue st) (options_assigned st) text = [v] →
  on_valueChanges text st
  = declareFilteredOptions_value text
      (declareFilteredOptions_value (labelOf options v)
         (outgoing_committed v (labelOf options v) (edit_committed text st))).
Proof.
  intros Hcur Hemit. unfold on_valueChanges. cbn zeta.
  fold (edit_committed text st).
  destruct (edit_committed_fields text st) as (_ & _ & _ & _ & Ha & Ho).
  rewrite Ha, Ho, Hemit. cbn [foldl]. unfold on_innerToOuter. cbn zeta.
  erewrite on_latestValue_eq; [reflexivity|].
  rewrite current_options_last in *. rewrite <- Hcur. by destruct st.
Qed.

Lemma dropped_edit_quiet st text :
  innerToOuter (allowNonOptionValue st) (options_assigned st) text = [] →
  quiet st (step st (InnerEdit text))
  ∧ formControl_value (step st (InnerEdit text)) = text.
Proof.
  intros Hdrop. cbn [step]. rewrite (on_valueChanges_dropped _ _ Hdrop).
  destruct (declareFilteredOptions_value_quiet text (edit_committed text st))
    as ([Ha Ho Hov Hs Hw Hout] & Hf & _).
  destruct (edit_committed_fields text st) as (Hl & Hf' & Hov' & Hs' & Ha' & Ho').
  split; [|congruence].
  constructor; try congruence.
  - rewrite Hw, Hl, writes_snoc2. cbn. by rewrite app_nil_r.
  - rewrite Hout, Hl, outgoing_snoc2. cbn. by rewrite app_nil_r.
Qed.

Lemma dropped_edits_quiet texts st :
  Forall (λ t, innerToOuter (allowNonOptionValue st) (options_assigned st) t = [])
         texts →
  quiet st (run st (map InnerEdit texts)).
Proof.
  revert st. induction texts as [|t texts IH]; intros st Hall.
  - apply quiet_refl.
  - inversion Hall as [|? ? Ht Hrest]; subst.
    destruct (dropped_edit_quiet st t Ht) as [Hq _].
    apply (quiet_trans _ _ _ Hq). apply IH.
    by rewrite (quiet_allow _ _ Hq), (quiet_options _ _ Hq).
Qed.

(** What the [tap] of [handleFocusOut] does when a label is known. *)
Lemma handleFocusOut_known st l :
  latestValueLabel_slot st = Some l →
  formControl_value (handleFocusOut st) = l
  ∧ outer_value (handleFocusOut st) = outer_value st
  ∧ change_events (log (handleFocusOut st)) = change_events (log st)
  ∧ outgoing (log (handleFocusOut st)) = outgoing (log st)
  ∧ (formControl_value st ≠ l →
     log (handleFocusOut st) = (log st ++ [SetValue l])%list)
  ∧ (formControl_value st = l → handleFocusOut st = st).
Proof.
  intros Hs. unfold handleFocusOut. rewrite Hs.
  destruct (bool_decide (formControl_value st = l)) eqn:Hd.
  - apply bool_decide_eq_true in Hd. by repeat split.
  - apply bool_decide_eq_false in Hd. destruct st. cbn in *.
    rewrite change_events_snoc2, outgoing_snoc2. cbn.
    rewrite !app_nil_r. by repeat split.
Qed.

Lemma leaves_step st e : leaves e → step st e = handleFocusOut st.
Proof. by intros [-> | ->]. Qed.

Lemma labelOf_unique options o :
  NoDup (map value options) → o ∈ options →
  labelOf options (str (value o)) = str (label o).
Proof.
  intros Hnd Hin. unfold labelOf.
  assert (Hfind : List.find (λ y : AutocompleteOption, strict_eq (str (value y)) (str (value o)))
                    options = Some o).
  { rewrite <- (find_unique value options o Hnd Hin).
    apply find_agree. intros y. unfold strict_eq.
    apply bool_decide_ext. split; congruence. }
  by rewrite Hfind.
Qed.

Lemma labelOf_unmatched options v :
  (∀ y : AutocompleteOption, y ∈ options → str (value y) ≠ v) → labelOf options v = undefined.
Proof.
  intros Hno. unfold labelOf. rewrite find_none; [done|].
  intros y Hy. apply strict_eq_false. by apply Hno.
Qed.

(** A value arrives from outside while an option set is current. *)
Lemma incoming_fields st v options :
  current_options st = Some options →
  let st' := step st (HandleIncomingValue v) in
  outer_value st' = v
  ∧ latestValueLabel_slot st' = Some (labelOf options v)
  ∧ outerToInner (allowNonOptionValue st) (options_assigned st) v
    = [formControl_value st']
  ∧ allowNonOptionValue st' = allowNonOptionValue st
  ∧ options_assigned st' = options_assigned st.
Proof.
  intros Hcur. cbn zeta. cbn [step].
  destruct (handleIncomingValue_frame st v) as [Ha Ho].
  destruct (handleIncomingValue_eq st v options Hcur) as (w & Hw & Heq).
  fold (incoming_committed v w (labelOf options v) st) in Heq.
  destruct (declareFilteredOptions_value_quiet (labelOf options v)
              (incoming_committed v w (labelOf options v) st))
    as ([_ _ Hov Hs _ _] & Hf & _).
  destruct (incoming_committed_fields v w (labelOf options v) st)
    as (_ & Hf' & Hov' & Hs' & _).
  rewrite Heq, Hov, Hs, Hf, Hf', Hov', Hs', Hw.
  rewrite <- Heq. by repeat split.
Qed.

(** An edit is let through while an option set is current. *)
Lemma emitted_edit_fields st text v options :
  current_options st = Some options →
  innerToOuter (allowNonOptionValue st) (options_assigned st) text = [v] →
  let st' := step st (InnerEdit text) in
  outer_value st' = v
  ∧ latestValueLabel_slot st' = Some (labelOf options v)
  ∧ formControl_value st' = text
  ∧ outgoing (log st') = (outgoing (log st) ++ [v])%list
  ∧ allowNonOptionValue st' = allowNonOptionValue st
  ∧ options_assigned st' = options_assigned st.
Proof.
  intros Hcur Hemit. cbn zeta. cbn [step].
  rewrite (on_valueChanges_emitted st text v options Hcur Hemit).
  set (l := labelOf options v).
  set (S0 := outgoing_committed v l (edit_committed text st)).
  destruct (declareFilteredOptions_value_quiet text (declareFilteredOptions_value l S0))
    as ([Ha2 Ho2 Hov2 Hs2 _ Hout2] & Hf2 & _).
  destruct (declareFilteredOptions_value_quiet l S0) as ([Ha1 Ho1 Hov1 Hs1 _ Hout1] & Hf1 & _).
  destruct (outgoing_committed_fields v l (edit_committed text st))
    as (Hl & Hf & Hov & Hs & Ha & Ho).
  destruct (edit_committed_fields text st) as (Hl' & Hf' & _ & _ & Ha' & Ho').
  fold S0 in Hl, Hf, Hov, Hs, Ha, Ho.
  rewrite Hov2, Hov1, Hov, Hs2, Hs1, Hs, Hf2, Hf1, Hf, Hf'.
  rewrite Hout2, Hout1, Hl, Hl', Ha2, Ha1, Ha, Ha', Ho2, Ho1, Ho, Ho'.
  rewrite <- app_assoc, outgoing_snoc2. cbn. by repeat split.
Qed.

(** C4, as amended. On escape or loss of focus, when the label derived
    for the latest value (the label of the first option whose value is
    that value, looked up as the value arrives) differs from the inner
    text, the text is set to that label by a silent write: no inner
    change event, nothing emitted to the outside. And with free values not
    allowed and labels and values unique: once an option's value is the
    latest value (the option was picked, or its value was assigned from
    outside), any edits that match no label followed by a loss of focus
    leave the outer value at that option's value and the text at that
    option's label. *)
Theorem focusOut_resets_to_latest_label :
  (∀ st e l,
     leaves e →
     latestValueLabel_slot st = Some l →
     formControl_value st ≠ l →
     let st' := step st e in
     formControl_value st' = l
     ∧ log st' = (log st ++ [SetValue l])%list
     ∧ change_events (log st') = change_events (log st)
     ∧ outgoing (log st') = outgoing (log st)
     ∧ outer_value st' = outer_value st)
  ∧ (∀ st options v,
       current_options st = Some options →
       latestValueLabel_slot (step st (HandleIncomingValue v))
         = Some (labelOf options v)
       ∧ (∀ text,
            innerToOuter (allowNonOptionValue st) (options_assigned st) text = [v] →
            latestValueLabel_slot (step st (InnerEdit text))
            = Some (labelOf options v))
       ∧ (∀ o, NoDup (map value options) → o ∈ options → str (value o) = v →
            labelOf options v = str (label o)))
  ∧ (∀ st options o establish texts e,
       current_options st = Some options →
       allowNonOptionValue st = false →
       NoDup (map label options) →
       NoDup (map value options) →
       o ∈ options →
       establish = selectOption o
       ∨ establish = HandleIncomingValue (str (value o)) →
       Forall (λ t, ∀ y : AutocompleteOption, y ∈ options → str (label y) ≠ t)
              texts →
       leaves e →
       let before := run st (establish :: map InnerEdit texts) in
       let after := step before e in
       outer_value after = str (value o)
       ∧ formControl_value after = str (label o)
       ∧ change_events (log after) = change_events (log before)
       ∧ outgoing (log after) = outgoing (log before)).
Proof.
  split; [|split].
  - intros st e l He Hs Hf. cbn zeta. rewrite (leaves_step _ _ He).
    destruct (handleFocusOut_known st l Hs) as (H1 & H2 & H3 & H4 & H5 & _).
    repeat split; auto.
  - intros st options v Hcur. split; [|split].
    + by destruct (incoming_fields st v options Hcur) as (_ & H2 & _).
    + intros text Hemit.
      by destruct (emitted_edit_fields st text v options Hcur Hemit)
        as (_ & H2 & _).
    + intros o Hnd Hin <-. by apply labelOf_unique.
  - intros st options o establish texts e Hcur Hallow Hlab Hval Hin Hest
           Htexts He.
    cbn zeta.
    change (run st (establish :: map InnerEdit texts))
      with (run (step st establish) (map InnerEdit texts)).
    set (st1 := step st establish).
    assert (Hst1 : outer_value st1 = str (value o)
                   ∧ latestValueLabel_slot st1 = Some (str (label o))
                   ∧ allowNonOptionValue st1 = false
                   ∧ options_assigned st1 = options_assigned st).
    { subst st1. destruct Hest as [-> | ->].
      - unfold selectOption.
        assert (Hemit : innerToOuter (allowNonOptionValue st)
                          (options_assigned st) (str (label o))
                        = [str (value o)]).
        { rewrite current_options_last in Hcur. rewrite Hallow.
          by apply (innerToOuter_unique_label _ options). }
        destruct (emitted_edit_fields st _ _ options Hcur Hemit)
          as (H1 & H2 & _ & _ & H5 & H6).
        rewrite (labelOf_unique options o Hval Hin) in H2.
        repeat split; congruence.
      - destruct (incoming_fields st (str (value o)) options Hcur)
          as (H1 & H2 & _ & H4 & H5).
        rewrite (labelOf_unique options o Hval Hin) in H2.
        repeat split; congruence. }
    destruct Hst1 as (Hov1 & Hs1 & Ha1 & Ho1).
    assert (Hq : quiet st1 (run st1 (map InnerEdit texts))).
    { apply dropped_edits_quiet. rewrite Ha1, Ho1.
      eapply Forall_impl; [exact Htexts|]. intros t Ht. cbn beta in Ht.
      rewrite current_options_last in Hcur.
      by apply (innerToOuter_no_label _ options). }
    set (before := run st1 (map InnerEdit texts)) in *.
    rewrite (leaves_step _ _ He).
    assert (Hs : latestValueLabel_slot before = Some (str (label o))).
    { by rewrite (quiet_slot _ _ Hq). }
    destruct (handleFocusOut_known before _ Hs) as (H1 & H2 & H3 & H4 & _).
    rewrite H1, H2, H3, H4, (quiet_outer _ _ Hq). by repeat split.
Qed.

(** C9: when the latest value is no option's value, the label derived for
    it is undefined, and escape or loss of focus then leaves the inner
    text undefined. For a value assigned from outside; and for free text
    typed while free values are allowed, which was emitted as the outer
    value and stays the outer value while the text is wiped by a silent
    write. *)
Theorem unmatched_latest_value_clears_text st options v e :
  current_options st = Some options →
  (∀ y : AutocompleteOption, y ∈ options → str (value y) ≠ v) →
  leaves e →
  labelOf options v = undefined
  ∧ (let st1 := step st (HandleIncomingValue v) in
     let st2 := step st1 e in
     latestValueLabel_slot st1 = Some undefined
     ∧ formControl_value st2 = undefined
     ∧ outer_value st2 = v)
  ∧ (allowNonOptionValue st = true →
     let st1 := step st (InnerEdit v) in
     let st2 := step st1 e in
     latestValueLabel_slot st1 = Some undefined
     ∧ formControl_value st1 = v
     ∧ outgoing (log st1) = (outgoing (log st) ++ [v])%list
     ∧ formControl_value st2 = undefined
     ∧ outer_value st2 = v
     ∧ outgoing (log st2) = outgoing (log st1)
     ∧ change_events (log st2) = change_events (log st1)
     ∧ (v ≠ undefined → log st2 = (log st1 ++ [SetValue undefined])%list)).
Proof.
  intros Hcur Hno He.
  pose proof (labelOf_unmatched options v Hno) as Hl.
  split; [done|]. split.
  - cbn zeta.
    destruct (incoming_fields st v options Hcur) as (H1 & H2 & _).
    rewrite Hl in H2. rewrite (leaves_step _ _ He).
    destruct (handleFocusOut_known _ _ H2) as (H3 & H4 & _).
    by rewrite H3, H4.
  - intros Hallow. cbn zeta.
    assert (Hemit : innerToOuter (allowNonOptionValue st)
                      (options_assigned st) v = [v]).
    { rewrite current_options_last in Hcur. rewrite Hallow.
      by apply (innerToOuter_free _ options). }
    destruct (emitted_edit_fields st v v options Hcur Hemit)
      as (H1 & H2 & H3 & H4 & _).
    rewrite Hl in H2. rewrite (leaves_step _ _ He).
    destruct (handleFocusOut_known _ _ H2) as (H5 & H6 & H7 & H8 & H9 & _).
    rewrite H5, H6, H7, H8. repeat split; try done.
    intros Hv. apply H9. by rewrite H3.
Qed.

End MachineFacts.

(** Assigning "ID" twice writes "Indonesia" twice; before any options
    were assigned it writes nothing at all. *)
Lemma same_outer_value_twice_two_writes :
  let twice := [Autocomplete.HandleIncomingValue (Js.str "ID");
                Autocomplete.HandleIncomingValue (Js.str "ID")] in
  let st := Autocomplete.run Autocomplete.initial
              [Autocomplete.SetOptions Autocomplete.options] in
  Autocomplete.writes (Autocomplete.log st) = []
  ∧ Autocomplete.writes (Autocomplete.log (Autocomplete.run st twice))
    = [Js.str "Indonesia"; Js.str "Indonesia"]
  ∧ Autocomplete.writes
      (Autocomplete.log (Autocomplete.run Autocomplete.initial twice))
    = [].
Proof. repeat split; reflexivity. Qed.

Lemma handleIncomingValue_same_value_twice_witness :
  let st := Autocomplete.run Autocomplete.initial
              [Autocomplete.SubscribeFilteredOptions;
               Autocomplete.SetOptions Autocomplete.options] in
  let st1 := Autocomplete.step st (Autocomplete.HandleIncomingValue (Js.str "ID")) in
  let st2 := Autocomplete.step st1 (Autocomplete.HandleIncomingValue (Js.str "ID")) in
  Autocomplete.writes (Autocomplete.log st2)
    = [Js.str "Indonesia"; Js.str "Indonesia"]
  ∧ Autocomplete.filtered_lists (Autocomplete.log st2)
    = Autocomplete.filtered_lists (Autocomplete.log st1).
Proof.
  intros st st1 st2.
  destruct (handleIncomingValue_same_value_twice st (Js.str "ID"))
    as (Hcurrent & _).
  destruct (Hcurrent Autocomplete.options eq_refl)
    as (written & Hw & _ & Hw2 & _ & _ & Hf).
  injection Hw as <-. split; [exact Hw2 | exact Hf].
Defined.

(** With free values allowed the typed text is emitted, so after picking
    Indonesia, clearing, typing "qwe" and leaving, the outer value is
    "qwe" and the text is undefined. And where two options share a label,
    picking the second makes the first one's value the outer value. *)
Lemma free_text_replaces_selection :
  let free := Autocomplete.run Autocomplete.initial
                [Autocomplete.SetOptions Autocomplete.options;
                 Autocomplete.SetAllowNonOptionValue true;
                 Autocomplete.selectOption Autocomplete.idOption;
                 Autocomplete.InnerEdit (Js.str "");
                 Autocomplete.InnerEdit (Js.str "qwe");
                 Autocomplete.FocusMonitor None] in
  let first := Autocomplete.mkOption "A" "X" None in
  let second := Autocomplete.mkOption "B" "X" None in
  let shared := Autocomplete.run Autocomplete.initial
                  [Autocomplete.SetOptions [first; second];
                   Autocomplete.selectOption second;
                   Autocomplete.InnerEdit (Js.str "");
                   Autocomplete.InnerEdit (Js.str "qwe");
                   Autocomplete.FocusMonitor None] in
  (Autocomplete.outer_value free = Js.str "qwe"
   ∧ Autocomplete.outer_value free ≠ Js.str (Autocomplete.value Autocomplete.idOption)
   ∧ Autocomplete.formControl_value free = Js.undefined
   ∧ Autocomplete.formControl_value free
     ≠ Js.str (Autocomplete.label Autocomplete.idOption))
  ∧ (Autocomplete.allowNonOptionValue shared = false
     ∧ Autocomplete.outer_value shared = Js.str "A"
     ∧ Autocomplete.outer_value shared ≠ Js.str (Autocomplete.value second)).
Proof. vm_compute. repeat split; discriminate. Qed.

(** The label is the one derived as the value arrived: when the options
    are replaced afterwards, a loss of focus still writes the label the
    value had in the earlier option set. *)
Lemma label_is_derived_on_arrival :
  let renamed := Autocomplete.mkOption "ID" "Republic of Indonesia" None in
  let st := Autocomplete.run Autocomplete.initial
              [Autocomplete.SetOptions Autocomplete.options;
               Autocomplete.HandleIncomingValue (Js.str "ID");
               Autocomplete.SetOptions [renamed];
               Autocomplete.InnerEdit (Js.str "qwe");
               Autocomplete.FocusMonitor None] in
  Autocomplete.current_options st = Some [renamed]
  ∧ Autocomplete.outer_value st = Js.str "ID"
  ∧ Autocomplete.formControl_value st = Js.str "Indonesia".
Proof. vm_compute. by repeat split. Qed.

Lemma focusOut_resets_to_latest_label_witness :
  let st := Autocomplete.run Autocomplete.initial
              [Autocomplete.SetOptions Autocomplete.options] in
  let before := Autocomplete.run st
                  [Autocomplete.InnerEdit (Js.str "Indonesia");
                   Autocomplete.InnerEdit (Js.str "");
                   Autocomplete.InnerEdit (Js.str "qwe")] in
  let after := Autocomplete.step before (Autocomplete.FocusMonitor None) in
  Autocomplete.outer_value after = Js.str "ID"
  ∧ Autocomplete.formControl_value after = Js.str "Indonesia"
  ∧ Autocomplete.log after
    = (Autocomplete.log before ++ [Autocomplete.SetValue (Js.str "Indonesia")])%list.
Proof.
  intros st before after.
  destruct focusOut_resets_to_latest_label as (Hreset & _ & Hscenario).
  destruct (Hscenario st Autocomplete.options Autocomplete.idOption
              (Autocomplete.selectOption Autocomplete.idOption)
              [Js.str ""; Js.str "qwe"] (Autocomplete.FocusMonitor None))
    as (Hov & Hfc & _); try reflexivity; try decide_by_computing.
  - do 2 apply list_elem_of_further. apply list_elem_of_here.
  - by left.
  - repeat constructor;
      (apply Forall_forall; repeat constructor; discriminate).
  - by right.
  - split; [exact Hov|]. split; [exact Hfc|].
    destruct (Hreset before (Autocomplete.FocusMonitor None) (Js.str "Indonesia"))
      as (_ & Hlog & _); [by right|reflexivity|discriminate|exact Hlog].
Defined.

Lemma unmatched_latest_value_clears_text_witness :
  let st := Autocomplete.run Autocomplete.initial
              [Autocomplete.SetOptions Autocomplete.options;
               Autocomplete.SetAllowNonOptionValue true] in
  let st1 := Autocomplete.step st (Autocomplete.InnerEdit (Js.str "asd")) in
  let st2 := Autocomplete.step st1 Autocomplete.EscapePressed in
  Autocomplete.outer_value st2 = Js.str "asd"
  ∧ Autocomplete.formControl_value st1 = Js.str "asd"
  ∧ Autocomplete.formControl_value st2 = Js.undefined.
Proof.
  intros st st1 st2.
  destruct (unmatched_latest_value_clears_text st Autocomplete.options
              (Js.str "asd") Autocomplete.EscapePressed)
    as (_ & _ & Hfree).
  - reflexivity.
  - apply Forall_forall. repeat constructor; discriminate.
  - by left.
  - destruct (Hfree eq_refl) as (_ & Hf1 & _ & Hf2 & Hov & _).
    split; [exact Hov|]. split; [exact Hf1 | exact Hf2].
Defined.

(** ** Method interception *)

Section PatchFacts.
Import Patch.
Context {World Val : Type} (undefined : Val).
Implicit Types (methods : gmap string (Function World Val)).
Implicit Types (fn method : Function World Val).

(** C7, as amended: after [patchObjectMethodWith] an invocation of the
    patched method, whatever its receiver, first calls the callback with
    the arguments it was given; when the callback returns it calls the
    original method with the same arguments and the target object as
    [this]; the invocation itself returns [undefined], not what the
    original returned, and a throw of either is passed on. Other methods
    are untouched. Where the original returns [undefined] the result of
    the invocation is that of the original. *)
Theorem patchObjectMethodWith_callback_then_original
    obj methods methodName fn method :
  methods !! methodName = Some method →
  ∃ patched,
    patchObjectMethodWith undefined obj methods methodName fn
      = Some (<[methodName := patched]> methods)
    ∧ (∀ receiver args w,
         invoke receiver (<[methodName := patched]> methods) methodName args w
         = Some match fn None args w with
                | Return _ w1 =>
                    match method (Some obj) args w1 with
                    | Return _ w2 => Return undefined w2
                    | Throw e w2 => Throw e w2
                    end
                | Throw e w1 => Throw e w1
                end)
    ∧ (∀ receiver args w r w1 w2,
         fn None args w = Return r w1 →
         method (Some obj) args w1 = Return undefined w2 →
         invoke receiver (<[methodName := patched]> methods) methodName args w
         = Some (method (Some obj) args w1))
    ∧ (∀ other, other ≠ methodName →
         <[methodName := patched]> methods !! other = methods !! other).
Proof.
  intros Hm. exists (updatedFn undefined fn (bind method obj)).
  unfold patchObjectMethodWith. rewrite Hm. split; [done|].
  split; [|split].
  - intros receiver args w. unfold invoke.
    by rewrite lookup_insert_eq.
  - intros receiver args w r w1 w2 Hfn Horig. unfold invoke.
    rewrite lookup_insert_eq. unfold updatedFn, bind.
    by rewrite Hfn, Horig.
  - intros other Hne. by rewrite lookup_insert_ne.
Qed.

(** A missing method name: [undefined.bind] throws, nothing is patched. *)
Lemma patchObjectMethodWith_missing obj methods methodName fn :
  methods !! methodName = None →
  patchObjectMethodWith undefined obj methods methodName fn = None.
Proof. intros Hm. unfold patchObjectMethodWith. by rewrite Hm. Qed.

End PatchFacts.

(** A method that returns 7 returns [undefined] (here 0) once patched;
    and when the callback throws the original method is not called. *)
Lemma patched_method_returns_undefined :
  Patch.invoke 1%nat Patch.demo_methods "push" [3%nat] []
    = Some (Patch.Return 7%nat ["original@obj"])
  ∧ (Patch.patchObjectMethodWith 0%nat 1%nat Patch.demo_methods "push"
       (Patch.traced "callback" 9)
     ≫= λ patched, Patch.invoke 1%nat patched "push" [3%nat] [])
    = Some (Patch.Return 0%nat ["callback"; "original@obj"])
  ∧ (Patch.patchObjectMethodWith 0%nat 1%nat Patch.demo_methods "push"
       (Patch.throwing "callback throws" 4)
     ≫= λ patched, Patch.invoke 1%nat patched "push" [3%nat] [])
    = Some (Patch.Throw 4%nat ["callback throws"]).
Proof. repeat split; reflexivity. Qed.

Lemma patchObjectMethodWith_callback_then_original_witness :
  ∃ patched,
    Patch.patchObjectMethodWith 0%nat 1%nat Patch.demo_methods "push"
      (Patch.traced "callback" 9)
    = Some (<["push":=patched]> Patch.demo_methods)
    ∧ Patch.invoke 2%nat (<["push":=patched]> Patch.demo_methods) "push" [3%nat] []
      = Some (Patch.Return 0%nat ["callback"; "original@obj"]).
Proof.
  destruct (patchObjectMethodWith_callback_then_original 0%nat 1%nat
              Patch.demo_methods "push" (Patch.traced "callback" 9)
              (Patch.traced "original" 7) eq_refl)
    as (patched & Hpatch & Hinvoke & _).
  exists patched. split; [exact Hpatch|].
  rewrite Hinvoke. reflexivity.
Defined.

(** ** The wrapped form control *)

Section WrappedFacts.
Import Wrapped.
Implicit Types (c : Component) (errs : option ValidationErrors).

Lemma deferred_setup_bound c :
  has_outer_control c = true →
  syncOuterAndInnerControls_timeout c
  = syncOuterToInnerPending
      (syncOuterAndInnerDirty
         (syncOuterAndInnerTouched (syncOuterToInnerErrors c))).
Proof. intros Hc. unfold syncOuterAndInnerControls_timeout. by rewrite Hc. Qed.

Lemma syncOuterToInnerErrors_frame c :
  has_outer_control (syncOuterToInnerErrors c) = has_outer_control c
  ∧ patched (syncOuterToInnerErrors c) = patched c
  ∧ destroyed (syncOuterToInnerErrors c) = destroyed c.
Proof.
  unfold syncOuterToInnerErrors, has_outer_control.
  destruct c as [d [ngc|] fc subs p n t]; cbn; [|done].
  by destruct (statusChanges ngc).
Qed.

(** C8, as amended: the deferred set up asks one thing only, whether an
    outer control is bound. Without one it does nothing. With one it
    wraps the seven methods and, if the outer control has a status
    stream, installs the error validator, on a destroyed instance as on a
    live one: it reads no liveness flag, so destroying the instance
    before the turn does not stop it. *)
Theorem deferred_setup_checks_binding_only c :
  (has_outer_control c = false → syncOuterAndInnerControls_timeout c = c)
  ∧ (has_outer_control c = true →
       patched (syncOuterAndInnerControls_timeout c) = (patched c ++ setup_patches)%list
       ∧ SyncOuterToInnerTouched ∈ subscriptions (syncOuterAndInnerControls_timeout c)
       ∧ SyncOuterToInnerDirty ∈ subscriptions (syncOuterAndInnerControls_timeout c)
       ∧ (∀ ngc, ngControl c = Some ngc → statusChanges ngc = true →
            fc_validator (formControl (syncOuterAndInnerControls_timeout c))
            = Some (syncErrorsValidator (errors ngc))))
  ∧ (∀ b, syncOuterAndInnerControls_timeout (set_destroyed b c) = set_destroyed b (syncOuterAndInnerControls_timeout c))
  ∧ (has_outer_control c = true → (0 < pending_timeouts c)%nat →
       destroyed (run c [Destroy; Turn]) = true
       ∧ patched (run c [Destroy; Turn]) = (patched c ++ setup_patches)%list).
Proof.
  split; [|split; [|split]].
  - intros Hc. unfold syncOuterAndInnerControls_timeout. by rewrite Hc.
  - intros Hc. rewrite (deferred_setup_bound c Hc).
    destruct c as [d [[ctl sc er]|] fc subs p n t]; [|done].
    cbn in Hc. subst ctl. unfold setup_patches.
    destruct sc; cbn; rewrite <- ?app_assoc; cbn.
    + repeat split; try set_solver;
        intros ngc' [= <-] _; cbn; unfold updateValueAndValidity; cbn;
        by destruct (fc_disabled fc).
    + repeat split; try set_solver;
        by intros ngc' [= <-] Hs'.
  - intros b.
    destruct c as [d [[[] [] er]|] fc subs p n t]; reflexivity.
  - intros Hc Hp.
    destruct c as [d [[ctl sc er]|] fc subs p n [|t]];
      try (cbn in Hp; lia); try done.
    cbn in Hc. subst ctl. unfold setup_patches.
    destruct sc; cbn; by rewrite <- ?app_assoc.
Qed.

Lemma outer_status_subscriptions c errs :
  subscriptions (step c (OuterStatus errs)) = subscriptions c.
Proof.
  cbn [step]. unfold outer_status. cbn.
  destruct (bool_decide _); by destruct c.
Qed.

(** C10: while the error synchronisation is subscribed, each outer status
    change overwrites the inner control's validator by one that returns
    the outer control's errors of that moment for any control it is
    given; what was configured before has no influence on the outcome,
    and after a series of status changes the validator returns the errors
    of the last one. *)
Theorem outer_status_replaces_validators c errs :
  SyncOuterToInnerErrors ∈ subscriptions c →
  fc_validator (formControl (step c (OuterStatus errs)))
    = Some (syncErrorsValidator errs)
  ∧ (∀ other : ControlView, syncErrorsValidator errs other = errs)
  ∧ (∀ previous,
       step (configured_with previous c) (OuterStatus errs)
       = step c (OuterStatus errs))
  ∧ (fc_disabled (formControl c) = false →
       fc_errors (formControl (step c (OuterStatus errs))) = errs)
  ∧ (∀ earlier,
       fc_validator
         (formControl (run c (map OuterStatus (earlier ++ [errs]))))
       = Some (syncErrorsValidator errs)).
Proof.
  intros Hsub.
  assert (Hstep : ∀ c' e, SyncOuterToInnerErrors ∈ subscriptions c' →
            fc_validator (formControl (step c' (OuterStatus e)))
            = Some (syncErrorsValidator e)).
  { intros c' e Hs. cbn [step]. unfold outer_status. cbn.
    rewrite bool_decide_true by done.
    unfold syncOuterToInnerErrors_tap, updateValueAndValidity. cbn.
    by destruct (fc_disabled (formControl c')). }
  split; [by apply Hstep|]. split; [done|]. split; [|split].
  - intros previous. cbn [step]. unfold outer_status, configured_with. cbn.
    rewrite bool_decide_true by done.
    unfold syncOuterToInnerErrors_tap, updateValueAndValidity. cbn.
    by destruct (fc_disabled (formControl c)).
  - intros Hen. cbn [step]. unfold outer_status. cbn.
    rewrite bool_decide_true by done.
    unfold syncOuterToInnerErrors_tap, updateValueAndValidity. cbn.
    by rewrite Hen.
  - intros earlier. revert c Hsub.
    induction earlier as [|e earlier IH]; intros c Hsub.
    + by apply Hstep.
    + change (run c (map OuterStatus ((e :: earlier) ++ [errs])))
        with (run (step c (OuterStatus e)) (map OuterStatus (earlier ++ [errs]))).
      apply IH. by rewrite outer_status_subscriptions.
Qed.

End WrappedFacts.

(** Destroyed before the turn, and set up all the same. *)
Lemma deferred_setup_runs_after_destroy :
  let c := Wrapped.run
             (Wrapped.construct
                (Some (Wrapped.mkNgControl true true (Some {[ "required" := true ]}))))
             [Wrapped.Destroy; Wrapped.Turn] in
  Wrapped.destroyed c = true
  ∧ Wrapped.patched c = Wrapped.setup_patches
  ∧ Wrapped.fc_errors (Wrapped.formControl c) = Some {[ "required" := true ]}
  ∧ Wrapped.fc_status (Wrapped.formControl c) = Wrapped.INVALID.
Proof. repeat split; reflexivity. Qed.

Lemma deferred_setup_checks_binding_only_witness :
  let bound := Wrapped.construct
                 (Some (Wrapped.mkNgControl true true None)) in
  let unbound := Wrapped.construct None in
  Wrapped.syncOuterAndInnerControls_timeout unbound = unbound
  ∧ Wrapped.patched (Wrapped.syncOuterAndInnerControls_timeout bound) = Wrapped.setup_patches
  ∧ Wrapped.patched (Wrapped.run bound [Wrapped.Destroy; Wrapped.Turn])
    = Wrapped.setup_patches.
Proof.
  intros bound unbound.
  destruct (deferred_setup_checks_binding_only unbound) as (Hnone & _).
  destruct (deferred_setup_checks_binding_only bound)
    as (_ & Hsome & _ & Hlate).
  split; [by apply Hnone|].
  destruct (Hsome eq_refl) as (Hpatched & _).
  destruct (Hlate eq_refl ltac:(cbn; lia)) as (_ & Hpatched').
  split; [exact Hpatched | exact Hpatched'].
Defined.

Lemma outer_status_replaces_validators_witness :
  let required : Wrapped.ValidatorFn :=
    fun control => Some {[ "required" := true ]} in
  let c := Wrapped.configured_with (Some required)
             (Wrapped.run
                (Wrapped.construct (Some (Wrapped.mkNgControl true true None)))
                [Wrapped.Turn]) in
  Wrapped.fc_validator
    (Wrapped.formControl (Wrapped.step c (Wrapped.OuterStatus None)))
    = Some (Wrapped.syncErrorsValidator None)
  ∧ Wrapped.fc_errors
      (Wrapped.formControl (Wrapped.step c (Wrapped.OuterStatus None)))
    = None.
Proof.
  intros required c.
  destruct (outer_status_replaces_validators c None) as (Hv & _ & _ & He & _).
  - apply list_elem_of_further, list_elem_of_further, list_elem_of_here.
  - split; [exact Hv | by apply He].
Defined.

(** ** Touched, dirty and pending synchronisation *)

Section SyncFacts.
Import Patch Sync.
Implicit Types (w : World) (k : nat) (args : list Val).

(** Evaluate a call on a world given by its fields. *)
Ltac run_call w :=
  destruct w as [ot it od id op ip [[|]|] [[|]|] n]; vm_compute; reflexivity.

Lemma outer_markAsTouched_eq k args w :
  perform (3 + k) (OuterCall "markAsTouched" args) w
  = Return undefined
      (set_touched outer true
         (if bool_decide (touched_last w = Some true) then w
          else set_touched inner true (set_touched_last true w))).
Proof. run_call w. Qed.

Lemma outer_markAsUntouched_eq k args w :
  perform (3 + k) (OuterCall "markAsUntouched" args) w
  = Return undefined
      (set_touched outer false
         (if bool_decide (touched_last w = Some false) then w
          else set_touched inner false (set_touched_last false w))).
Proof. run_call w. Qed.

Lemma inner_markAsTouched_eq k args w :
  perform (3 + k) (InnerCall "markAsTouched" args) w
  = Return undefined
      (set_touched inner true
         (if not_onlySelf (first_arg args)
          then set_touched outer true
                 (if bool_decide (touched_last w = Some true)
                  then count_onTouched w
                  else set_touched inner true
                         (set_touched_last true (count_onTouched w)))
          else w)).
Proof.
  destruct args as [|[| [[|]|] e | |] rest]; run_call w.
Qed.

Lemma inner_markAsUntouched_eq k args w :
  perform (3 + k) (InnerCall "markAsUntouched" args) w
  = Return undefined (set_touched inner false w).
Proof. run_call w. Qed.

Lemma outer_markAsDirty_eq k args w :
  perform (3 + k) (OuterCall "markAsDirty" args) w
  = Return undefined
      (set_dirty outer true
         (if bool_decide (dirty_last w = Some true) then w
          else set_dirty inner true (set_dirty_last true w))).
Proof. run_call w. Qed.

Lemma outer_markAsPristine_eq k args w :
  perform (3 + k) (OuterCall "markAsPristine" args) w
  = Return undefined
      (set_dirty outer false
         (if bool_decide (dirty_last w = Some false) then w
          else set_dirty inner false (set_dirty_last false w))).
Proof. run_call w. Qed.

Lemma inner_markAsDirty_eq k args w :
  perform (3 + k) (InnerCall "markAsDirty" args) w
  = Return undefined
      (set_dirty inner true
         (if not_onlySelf (first_arg args)
          then set_dirty outer true
                 (if bool_decide (dirty_last w = Some true) then w
                  else set_dirty inner true (set_dirty_last true w))
          else w)).
Proof.
  destruct args as [|[| [[|]|] e | |] rest]; run_call w.
Qed.

Lemma inner_markAsPristine_eq k args w :
  perform (3 + k) (InnerCall "markAsPristine" args) w
  = Return undefined (set_dirty inner false w).
Proof. run_call w. Qed.

Lemma outer_markAsPending_eq k args w :
  perform (3 + k) (OuterCall "markAsPending" args) w
  = Return undefined
      (if emits (first_arg args)
       then set_pending inner false
              (set_pending outer true (set_pending inner true w))
       else set_pending outer true (set_pending inner true w)).
Proof.
  destruct args as [|[| os [[|]|] | |] rest]; run_call w.
Qed.

Lemma inner_markAsPending_eq k args w :
  perform (3 + k) (InnerCall "markAsPending" args) w
  = Return undefined (set_pending inner true w).
Proof.
  destruct args as [|[| os [[|]|] | |] rest]; run_call w.
Qed.

Lemma perform_all_cons k c calls w :
  perform_all k (c :: calls) w
  = match perform k c w with
    | Return _ w' => perform_all k calls w'
    | Throw e w' => Throw e w'
    end.
Proof. reflexivity. Qed.

Lemma perform_all_step k c calls w v w' :
  perform k c w = Return v w' →
  perform_all k (c :: calls) w = perform_all k calls w'.
Proof. intros Hp. by rewrite perform_all_cons, Hp. Qed.

(** X1: a touch of the inner control that is not self-scoped (a blur)
    reaches the outer control through the touch callback exactly once and
    stops there: both controls end touched, the dirty and pending flags
    are as before, and the outcome is the same at every depth of at least
    three nested calls, so the two directions do not call each other
    forever. *)
Theorem inner_touch_reaches_outer_once k w :
  ∃ w',
    perform (3 + k) (InnerCall "markAsTouched" []) w = Return undefined w'
    ∧ (∀ k', perform (3 + k') (InnerCall "markAsTouched" []) w
             = Return undefined w')
    ∧ inner_touched w' = true
    ∧ outer_touched w' = true
    ∧ touched_last w' = Some true
    ∧ onTouched_calls w' = S (onTouched_calls w)
    ∧ outer_dirty w' = outer_dirty w ∧ inner_dirty w' = inner_dirty w
    ∧ outer_pending w' = outer_pending w ∧ inner_pending w' = inner_pending w
    ∧ dirty_last w' = dirty_last w.
Proof.
  eexists. split; [exact (inner_markAsTouched_eq k [] w)|].
  split; [intros k'; exact (inner_markAsTouched_eq k' [] w)|].
  destruct w as [ot it od id op ip [[|]|] dl n]; by repeat split.
Qed.

(** X2: a self-scoped call on the inner control ([onlySelf: true]) stays
    inside: marking it touched or dirty changes that one flag of the inner
    control and nothing else, the outer control is not called. *)
Theorem self_scoped_inner_calls_stay_inside k emitEvent rest w :
  perform (3 + k) (InnerCall "markAsTouched" (opts (Some true) emitEvent :: rest)) w
    = Return undefined (set_touched inner true w)
  ∧ perform (3 + k) (InnerCall "markAsDirty" (opts (Some true) emitEvent :: rest)) w
    = Return undefined (set_dirty inner true w)
  ∧ outer_touched (set_touched inner true w) = outer_touched w
  ∧ outer_dirty (set_dirty inner true w) = outer_dirty w
  ∧ onTouched_calls (set_touched inner true w) = onTouched_calls w.
Proof.
  split; [|split].
  - by rewrite inner_markAsTouched_eq.
  - by rewrite inner_markAsDirty_eq.
  - by destruct w.
Qed.

(** The touched flags agree with what the stream of touched changes let
    through last. *)
Lemma from_host_keeps_mirror k c w :
  from_host c → touched_mirrored w →
  ∃ w', perform (3 + k) c w = Return undefined w'
        ∧ touched_mirrored w'
        ∧ inner_touched w' = outer_touched w'
        ∧ dirty_last w' = dirty_last w
        ∧ outer_dirty w' = outer_dirty w ∧ inner_dirty w' = inner_dirty w.
Proof.
  unfold touched_mirrored.
  intros [-> | [-> | ->]] Hm.
  - exists (set_touched outer true
         (if bool_decide (touched_last w = Some true) then w
          else set_touched inner true (set_touched_last true w))).
    split; [exact (outer_markAsTouched_eq k [] w)|].
    destruct w as [ot it od id op ip [[|]|] dl n]; cbn in Hm;
      try (destruct (Hm _ eq_refl) as [-> ->]); vm_compute;
      (split; [intros b [= <-]; by split|by repeat split]).
  - exists (set_touched outer false
         (if bool_decide (touched_last w = Some false) then w
          else set_touched inner false (set_touched_last false w))).
    split; [exact (outer_markAsUntouched_eq k [] w)|].
    destruct w as [ot it od id op ip [[|]|] dl n]; cbn in Hm;
      try (destruct (Hm _ eq_refl) as [-> ->]); vm_compute;
      (split; [intros b [= <-]; by split|by repeat split]).
  - eexists. split; [exact (inner_markAsTouched_eq k [] w)|].
    destruct w as [ot it od id op ip [[|]|] dl n]; cbn in Hm;
      try (destruct (Hm _ eq_refl) as [-> ->]); vm_compute;
      (split; [intros b [= <-]; by split|by repeat split]).
Qed.

(** X3: starting from controls whose touched flags agree with the last
    touched change, after any non-empty series of calls that come from
    the host (the outer control marked touched or untouched, the inner
    control touched without options) the inner control is touched exactly
    when the outer control is. *)
Theorem touched_mirrored_after_host_calls k calls w :
  touched_mirrored w →
  Forall from_host calls →
  calls ≠ [] →
  ∃ w', perform_all (3 + k) calls w = Return undefined w'
        ∧ inner_touched w' = outer_touched w'
        ∧ touched_mirrored w'.
Proof.
  intros Hm Hall Hne.
  destruct calls as [|c calls]; [done|]. clear Hne.
  revert c w Hm Hall.
  induction calls as [|c' calls IH]; intros c w Hm Hall.
  - inversion Hall as [|? ? Hc _]; subst.
    destruct (from_host_keeps_mirror k c w Hc Hm) as (w' & Hp & Hm' & Heq & _).
    exists w'. rewrite perform_all_cons, Hp. split; [reflexivity|by split].
  - inversion Hall as [|? ? Hc Hrest]; subst.
    destruct (from_host_keeps_mirror k c w Hc Hm) as (w1 & Hp & Hm1 & _).
    destruct (IH c' w1 Hm1 Hrest) as (w' & Hp' & Heq & Hm').
    exists w'. rewrite perform_all_cons, Hp. split; [exact Hp'|by split].
Qed.

(** X4: the mirror can be left behind. When the inner control is marked
    untouched directly between two touches of the outer control, the
    second touch is held back as a repetition and the inner control stays
    untouched while the outer control is touched. *)
Theorem repeated_outer_touch_is_held_back k w :
  ∃ w',
    perform_all (3 + k)
      [OuterCall "markAsTouched" []; InnerCall "markAsUntouched" [];
       OuterCall "markAsTouched" []] w
    = Return undefined w'
    ∧ outer_touched w' = true
    ∧ inner_touched w' = false.
Proof.
  pose proof (outer_markAsTouched_eq k [] w) as H1.
  set (w1 := set_touched outer true _) in H1.
  pose proof (inner_markAsUntouched_eq k [] w1) as H2.
  pose proof (outer_markAsTouched_eq k [] (set_touched inner false w1)) as H3.
  eexists.
  erewrite perform_all_step; [|exact H1].
  erewrite perform_all_step; [|exact H2].
  erewrite perform_all_step; [|exact H3].
  split; [reflexivity|]. subst w1.
  destruct w as [ot it od id op ip [[|]|] dl n]; by split.
Qed.

(** X5: dirtiness goes both ways. A call that marks the inner control
    dirty without [onlySelf] marks the outer control dirty too; marking
    the outer control dirty or pristine carries over to the inner control
    unless the same change was the last one passed on; the touched flags,
    the pending flags and the touch callback are not involved. *)
Theorem dirty_goes_both_ways k w :
  (∃ w', perform (3 + k) (InnerCall "markAsDirty" []) w = Return undefined w'
         ∧ inner_dirty w' = true ∧ outer_dirty w' = true
         ∧ dirty_last w' = Some true
         ∧ outer_touched w' = outer_touched w ∧ inner_touched w' = inner_touched w
         ∧ outer_pending w' = outer_pending w ∧ inner_pending w' = inner_pending w
         ∧ onTouched_calls w' = onTouched_calls w)
  ∧ (∀ b : bool, ∃ w',
       perform (3 + k)
         (OuterCall (if b then "markAsDirty" else "markAsPristine") []) w
       = Return undefined w'
       ∧ outer_dirty w' = b
       ∧ dirty_last w' = Some b
       ∧ (dirty_last w ≠ Some b → inner_dirty w' = b)
       ∧ (dirty_last w = Some b → inner_dirty w' = inner_dirty w)
       ∧ outer_touched w' = outer_touched w ∧ inner_touched w' = inner_touched w
       ∧ outer_pending w' = outer_pending w ∧ inner_pending w' = inner_pending w
       ∧ onTouched_calls w' = onTouched_calls w).
Proof.
  split.
  - eexists. split; [exact (inner_markAsDirty_eq k [] w)|].
    destruct w as [ot it od id op ip tl [[|]|] n]; by repeat split.
  - intros [|]; eexists.
    + split; [exact (outer_markAsDirty_eq k [] w)|].
      destruct w as [ot it od id op ip tl [[|]|] n]; by repeat split.
    + split; [exact (outer_markAsPristine_eq k [] w)|].
      destruct w as [ot it od id op ip tl [[|]|] n]; by repeat split.
Qed.

(** X6: pending does not stay on the inner control. Marking the outer
    control pending marks the inner control pending first, through the
    patch; the original method then raises the status change of the outer
    control, on which the error synchronisation validates the inner
    control again, so the call ends with the outer control pending and
    the inner control not pending, whatever it was before. Only a call
    with [emitEvent: false] leaves the inner control pending. Marking the
    inner control pending, with any arguments, changes no flag of the
    outer control. Touched and dirty flags are not involved. *)
Theorem outer_pending_is_wiped_from_inner k args w :
  (∃ w', perform (3 + k) (OuterCall "markAsPending" args) w = Return undefined w'
         ∧ outer_pending w' = true
         ∧ inner_pending w' = negb (emits (first_arg args))
         ∧ outer_touched w' = outer_touched w ∧ inner_touched w' = inner_touched w
         ∧ outer_dirty w' = outer_dirty w ∧ inner_dirty w' = inner_dirty w
         ∧ onTouched_calls w' = onTouched_calls w)
  ∧ (∃ w', perform (3 + k) (InnerCall "markAsPending" args) w = Return undefined w'
           ∧ inner_pending w' = true
           ∧ outer_pending w' = outer_pending w
           ∧ outer_touched w' = outer_touched w
           ∧ outer_dirty w' = outer_dirty w).
Proof.
  split; eexists.
  - split; [exact (outer_markAsPending_eq k args w)|].
    destruct (emits (first_arg args)); by destruct w.
  - split; [exact (inner_markAsPending_eq k args w)|]. by destruct w.
Qed.

End SyncFacts.

(** ** Whole runs of the autocomplete *)

Section RunFacts.
Import Js Autocomplete Runs.
Implicit Types (st : State) (e : Event) (events : list Event).

Lemma silent_refl st : silent st st.
Proof. split; [apply quiet_refl|done]. Qed.

Lemma silent_trans st1 st2 st3 : silent st1 st2 → silent st2 st3 → silent st1 st3.
Proof.
  intros (Hq1 & Hf1 & Hc1) (Hq2 & Hf2 & Hc2).
  split; [by eapply quiet_trans|]. split; congruence.
Qed.

Lemma value_silent x st : silent st (declareFilteredOptions_value x st).
Proof. apply declareFilteredOptions_value_quiet. Qed.

Lemma combine_silent st : silent st (declareFilteredOptions_combine st).
Proof.
  unfold declareFilteredOptions_combine, current_options.
  destruct st as [a h f ov o2i i2o slot [[dl [cv|]]|] lg]; cbn;
    try apply silent_refl.
  destruct (Rx.slot_after_subscribe _); cbn; [|apply silent_refl].
  split; [constructor|]; cbn;
    rewrite ?writes_snoc2, ?outgoing_snoc2, ?change_events_snoc2; cbn;
    by rewrite ?app_nil_r.
Qed.

Lemma distinct_silent x st : silent st (declareFilteredOptions_distinct x st).
Proof.
  unfold declareFilteredOptions_distinct.
  destruct st as [a h f ov o2i i2o slot [sub|] lg]; cbn; [|apply silent_refl].
  destruct (bool_decide _); [apply silent_refl|].
  split; [by constructor|done].
Qed.

Lemma subscribe_silent st : silent st (subscribeFilteredOptions st).
Proof.
  unfold subscribeFilteredOptions.
  destruct (filteredOptions_sub st) eqn:Hsub; [apply silent_refl|].
  cbn zeta.
  set (st0 := set_filteredOptions_sub (mkSub None None) st).
  assert (H0 : silent st st0).
  { subst st0. destruct st. split; [by constructor|done]. }
  set (st1 := declareFilteredOptions_distinct null st0).
  assert (H1 : silent st st1).
  { eapply silent_trans; [exact H0|apply distinct_silent]. }
  eapply silent_trans; [|apply combine_silent].
  destruct (innerToOuter_replay st1) as [v|]; [|exact H1].
  rewrite latestValueLabel_eq.
  destruct (current_options st1); [|exact H1]. cbn.
  eapply silent_trans; [exact H1|apply distinct_silent].
Qed.

(** [innerToOuter] yields nothing or one value, and a value only when an
    option set is current. *)
Lemma innerToOuter_shape allow assigned text :
  innerToOuter allow assigned text = []
  ∨ ∃ v options,
      innerToOuter allow assigned text = [v] ∧ last assigned = Some options.
Proof.
  rewrite innerToOuter_eq.
  destruct (last assigned) as [options|]; [|by left].
  destruct allow; [right; by exists text, options|].
  destruct (matchingOptionValue options text) eqn:Hm; [by left| |];
    right; eexists _, options; by split.
Qed.

(** What one event does to the option sets, the flag and the three kinds
    of log entries. *)
Lemma step_effects st e :
  options_assigned (step st e) = (options_assigned st ++ assignments [e])%list
  ∧ allowNonOptionValue (step st e)
    = match e with
      | SetAllowNonOptionValue b => b
      | _ => allowNonOptionValue st
      end
  ∧ outgoing (log (step st e))
    = (outgoing (log st)
       ++ match e with
          | InnerEdit text =>
              innerToOuter (allowNonOptionValue st) (options_assigned st) text
          | _ => []
          end)%list
  ∧ change_events (log (step st e)) = (change_events (log st) ++ edits [e])%list
  ∧ (may_write e = false → writes (log (step st e)) = writes (log st)).
Proof.
  destruct e as [options|b|v|text|origin| |]; cbn [step assignments edits omap].
  - (* options assigned *)
    unfold setOptions.
    set (st0 := set_options_assigned _ st).
    destruct (combine_silent st0) as ([Ha Ho _ _ Hw Hout] & _ & Hc).
    rewrite Ha, Ho, Hw, Hout, Hc. subst st0. destruct st. cbn.
    by rewrite !app_nil_r.
  - destruct st. cbn. by rewrite !app_nil_r.
  - (* a value from outside *)
    destruct (handleIncomingValue_frame st v) as [Ha Ho].
    rewrite Ha, Ho. cbn.
    destruct (current_options st) as [options|] eqn:Hcur.
    + destruct (handleIncomingValue_eq st v options Hcur) as (x & _ & ->).
      fold (incoming_committed v x (labelOf options v) st).
      destruct (value_silent (labelOf options v)
                  (incoming_committed v x (labelOf options v) st))
        as ([_ _ _ _ _ Hout] & _ & Hc).
      destruct (incoming_committed_fields v x (labelOf options v) st) as (Hl & _).
      rewrite Hout, Hc, Hl, outgoing_snoc2, change_events_snoc2. cbn.
      by rewrite !app_nil_r.
    + rewrite (handleIncomingValue_without_options st v Hcur).
      destruct st. cbn. rewrite outgoing_snoc2, change_events_snoc2. cbn.
      by rewrite !app_nil_r.
  - (* an inner edit *)
    destruct (innerToOuter_shape (allowNonOptionValue st) (options_assigned st) text)
      as [Hdrop | (v & options & Hemit & Hcur)].
    + rewrite (on_valueChanges_dropped st text Hdrop), Hdrop.
      destruct (value_silent text (edit_committed text st))
        as ([Ha Ho _ _ Hw Hout] & _ & Hc).
      destruct (edit_committed_fields text st) as (Hl & _ & _ & _ & Ha' & Ho').
      rewrite Ha, Ho, Hw, Hout, Hc, Hl, Ha', Ho'.
      rewrite writes_snoc2, outgoing_snoc2, change_events_snoc2. cbn.
      by rewrite !app_nil_r.
    + rewrite <- current_options_last in Hcur.
      rewrite (on_valueChanges_emitted st text v options Hcur Hemit), Hemit.
      set (l := labelOf options v).
      set (st0 := outgoing_committed v l (edit_committed text st)).
      pose proof (silent_trans _ _ _ (value_silent l st0)
                    (value_silent text (declareFilteredOptions_value l st0)))
        as ([Ha Ho _ _ Hw Hout] & _ & Hc).
      destruct (outgoing_committed_fields v l (edit_committed text st))
        as (Hl & _ & _ & _ & Ha1 & Ho1).
      destruct (edit_committed_fields text st) as (Hl' & _ & _ & _ & Ha' & Ho').
      fold st0 in Hl, Ha1, Ho1.
      rewrite Ha, Ho, Hw, Hout, Hc, Hl, Hl', Ha1, Ho1, Ha', Ho'.
      rewrite <- !app_assoc.
      rewrite writes_snoc2, outgoing_snoc2, change_events_snoc2. cbn.
      by rewrite !app_nil_r.
  - (* the focus monitor *)
    destruct origin as [o|]; cbn; [by rewrite !app_nil_r|].
    unfold handleFocusOut.
    destruct (latestValueLabel_slot st) as [l|]; [|by rewrite !app_nil_r].
    destruct (bool_decide _); [by rewrite !app_nil_r|].
    destruct st. cbn. rewrite outgoing_snoc2, change_events_snoc2. cbn.
    by rewrite !app_nil_r.
  - (* escape *)
    unfold onEscapePressed, handleFocusOut.
    destruct (latestValueLabel_slot st) as [l|]; [|by rewrite !app_nil_r].
    destruct (bool_decide _); [by rewrite !app_nil_r|].
    destruct st. cbn. rewrite outgoing_snoc2, change_events_snoc2. cbn.
    by rewrite !app_nil_r.
  - (* the template subscribes *)
    destruct (subscribe_silent st) as ([Ha Ho _ _ Hw Hout] & _ & Hc).
    rewrite Ha, Ho, Hw, Hout, Hc. by rewrite !app_nil_r.
Qed.

Lemma run_cons st e events : run st (e :: events) = run (step st e) events.
Proof. reflexivity. Qed.

Lemma run_options_assigned events st :
  options_assigned (run st events)
  = (options_assigned st ++ assignments events)%list.
Proof.
  revert st. induction events as [|e events IH]; intros st.
  - cbn. by rewrite app_nil_r.
  - rewrite run_cons, IH.
    destruct (step_effects st e) as (-> & _).
    rewrite <- app_assoc. f_equal.
    unfold assignments. by rewrite <- omap_app.
Qed.

(** X7: the inner control announces exactly the inner edits. Over any
    run, the change events raised are the texts of the inner edits, in
    order: no assignment from outside, no reset on focus loss, no option
    assignment and no subscription raises one. *)
Theorem change_events_are_the_edits events st :
  change_events (log (run st events))
  = (change_events (log st) ++ edits events)%list.
Proof.
  revert st. induction events as [|e events IH]; intros st.
  - cbn. by rewrite app_nil_r.
  - rewrite run_cons, IH.
    destruct (step_effects st e) as (_ & _ & _ & -> & _).
    rewrite <- app_assoc. f_equal.
    unfold edits. by rewrite <- omap_app.
Qed.

(** X8: there is no echo. A run without inner edits emits nothing to the
    outside, whatever is assigned from outside and however focus moves;
    a run without assignments from outside and without focus or escape
    events never writes to the inner control. *)
Theorem no_echo events st :
  (edits events = [] → outgoing (log (run st events)) = outgoing (log st))
  ∧ (forallb (fun e => negb (may_write e)) events = true →
     writes (log (run st events)) = writes (log st)).
Proof.
  split.
  - revert st. induction events as [|e events IH]; intros st Hno; [done|].
    rewrite run_cons.
    destruct (step_effects st e) as (_ & _ & Hout & _).
    destruct e; cbn in Hno; try discriminate;
      rewrite (IH _ Hno), Hout; by rewrite app_nil_r.
  - revert st. induction events as [|e events IH]; intros st Hno; [done|].
    cbn in Hno. apply andb_true_iff in Hno as [He Hrest].
    rewrite run_cons, (IH _ Hrest).
    destruct (step_effects st e) as (_ & _ & _ & _ & Hw).
    apply Hw. by apply negb_true_iff.
Qed.

(** With free values not allowed, whatever [innerToOuter] emits for a
    text is the value of an option of the current set whose label is that
    text, and it emits at most one value. *)
Lemma innerToOuter_strict_option assigned text v :
  v ∈ innerToOuter false assigned text →
  innerToOuter false assigned text = [v]
  ∧ ∃ options o,
      last assigned = Some options ∧ o ∈ options
      ∧ str (label o) = text ∧ v = str (value o).
Proof.
  rewrite innerToOuter_eq.
  destruct (last assigned) as [options|]; [|by intros ?%elem_of_nil].
  unfold matchingOptionValue.
  destruct (List.find _ options) as [o|] eqn:Hfind; [|by intros ?%elem_of_nil].
  intros Hin. apply list_elem_of_singleton in Hin as ->.
  split; [done|]. exists options, o.
  apply find_some in Hfind as [Hin Hlab].
  apply strict_eq_true in Hlab. apply list_elem_of_In in Hin. by repeat split.
Qed.

(** X9: while free values stay disallowed, nothing but option values
    reaches the outside. In a run that starts with free values not
    allowed and never allows them, every value emitted during the run is
    the value of an option of an option set assigned by then. *)
Theorem strict_runs_emit_option_values events st v :
  allowNonOptionValue st = false →
  forallb keeps_strict events = true →
  v ∈ outgoing (log (run st events)) →
  v ∈ outgoing (log st)
  ∨ ∃ options o,
      options ∈ options_assigned (run st events)
      ∧ o ∈ options ∧ v = str (value o).
Proof.
  revert st. induction events as [|e events IH]; intros st Hallow Hstrict Hin;
    [by left|].
  cbn in Hstrict. apply andb_true_iff in Hstrict as [He Hrest].
  rewrite run_cons in *.
  destruct (step_effects st e) as (Ho & Ha & Hout & _).
  assert (Hallow' : allowNonOptionValue (step st e) = false).
  { rewrite Ha. by destruct e as [| [|] | | | | |]. }
  destruct (IH _ Hallow' Hrest Hin) as [Hold | Hnew]; [|by right].
  rewrite Hout in Hold. apply elem_of_app in Hold as [Hold | Hnow]; [by left|].
  right. destruct e; try by apply elem_of_nil in Hnow.
  rewrite Hallow in Hnow.
  apply innerToOuter_strict_option in Hnow
    as (_ & options & o & Hlast & Hin' & _ & ->).
  exists options, o. split; [|done].
  rewrite run_options_assigned, Ho.
  apply elem_of_app; left. apply elem_of_app; left.
  apply last_Some in Hlast as [l' ->]. apply elem_of_app. right.
  apply list_elem_of_here.
Qed.

(** X10: handling a loss of focus twice is the same as handling it once,
    and it never touches the outer value: for every state. *)
Theorem handleFocusOut_idempotent st :
  handleFocusOut (handleFocusOut st) = handleFocusOut st
  ∧ outer_value (handleFocusOut st) = outer_value st
  ∧ latestValueLabel_slot (handleFocusOut st) = latestValueLabel_slot st
  ∧ (∀ l, latestValueLabel_slot st = Some l →
          formControl_value (handleFocusOut st) = l).
Proof.
  unfold handleFocusOut.
  destruct (latestValueLabel_slot st) as [l|] eqn:Hs.
  - destruct (bool_decide (formControl_value st = l)) eqn:Hd.
    + rewrite Hs, Hd. apply bool_decide_eq_true in Hd.
      split; [done|]. split; [done|]. split; [done|]. by intros ? [= <-].
    + replace (latestValueLabel_slot (formControl_setValue_silently l st))
        with (Some l) by (rewrite <- Hs; by destruct st).
      replace (formControl_value (formControl_setValue_silently l st))
        with l by by destruct st.
      rewrite bool_decide_true by done.
      split; [done|]. split; [by destruct st|]. split; [done|].
      by intros ? [= <-].
  - rewrite Hs. by repeat split.
Qed.

(** X11: a value that arrives before the first option set is lost for
    the display. It becomes the outer value, but nothing is written to
    the inner control, no label is derived, and the option set that
    arrives afterwards does not bring the translation back; a loss of
    focus then finds the same label as before the value. *)
Theorem value_before_options_is_not_shown st v options e :
  current_options st = None →
  leaves e →
  let st' := run st [HandleIncomingValue v; SetOptions options] in
  outer_value st' = v
  ∧ current_options st' = Some options
  ∧ formControl_value st' = formControl_value st
  ∧ writes (log st') = writes (log st)
  ∧ latestValueLabel_slot st' = latestValueLabel_slot st
  ∧ (latestValueLabel_slot st = None → step st' e = st').
Proof.
  intros Hcur He. cbn zeta.
  change (run st [HandleIncomingValue v; SetOptions options])
    with (setOptions options (handleIncomingValue v st)).
  rewrite (handleIncomingValue_without_options st v Hcur).
  unfold setOptions.
  set (st0 := set_options_assigned _ _).
  destruct (combine_silent st0) as ([_ Ho Hov Hs Hw _] & Hf & _).
  assert (Hsame : outer_value st0 = v
                  ∧ formControl_value st0 = formControl_value st
                  ∧ writes (log st0) = writes (log st)
                  ∧ latestValueLabel_slot st0 = latestValueLabel_slot st
                  ∧ last (options_assigned st0) = Some options).
  { subst st0. destruct st. cbn. rewrite writes_snoc2, last_snoc. cbn.
    by rewrite app_nil_r. }
  destruct Hsame as (H1 & H2 & H3 & H4 & H5).
  rewrite current_options_last, Ho, Hov, Hf, Hw, Hs.
  repeat split; try congruence.
  intros Hnone. rewrite (leaves_step _ _ He). unfold handleFocusOut.
  by rewrite Hs, H4, Hnone.
Qed.

Lemma shows_filtered_frame st st' :
  filteredOptions_sub st' = filteredOptions_sub st →
  options_assigned st' = options_assigned st →
  filtered_lists (log st') = filtered_lists (log st) →
  shows_filtered st → shows_filtered st'.
Proof.
  unfold shows_filtered. intros -> Ho ->.
  rewrite !current_options_last, Ho. done.
Qed.

(** [combineLatest] brings the list up to date. *)
Lemma combine_shows st :
  (∀ sub, filteredOptions_sub st = Some sub →
          combine_value sub = distinct_last sub) →
  shows_filtered (declareFilteredOptions_combine st).
Proof.
  unfold shows_filtered, declareFilteredOptions_combine.
  destruct st as [a h f ov o2i i2o slot [[dl cv]|] lg]; cbn; [|done].
  intros Heq. specialize (Heq _ eq_refl). cbn in Heq. subst dl.
  destruct cv as [x|]; [|split; [done|by intros ? ? [=]]].
  unfold current_options. cbn [options_assigned].
  destruct (Rx.slot_after_subscribe (options_subject h)) as [options|] eqn:Hl;
    cbn; rewrite ?Hl.
  - split; [done|]. intros x' options' [= <-] [= <-].
    rewrite filtered_lists_snoc2. cbn. by rewrite last_snoc.
  - split; [done|]. by intros x' options' _ [=].
Qed.

Lemma value_shows x st :
  shows_filtered st → shows_filtered (declareFilteredOptions_value x st).
Proof.
  intros Hinv. unfold declareFilteredOptions_value.
  destruct (filteredOptions_sub st) as [sub|] eqn:Hsub; [|done].
  destruct (bool_decide _); [done|].
  apply combine_shows. unfold declareFilteredOptions_distinct.
  rewrite Hsub. destruct (bool_decide _).
  - intros sub' Hsub'. unfold shows_filtered in Hinv. rewrite Hsub' in Hinv.
    apply Hinv.
  - intros sub' Hsub'. destruct st. cbn in Hsub'. by injection Hsub' as <-.
Qed.

Lemma step_shows st e : shows_filtered st → shows_filtered (step st e).
Proof.
  intros Hinv.
  destruct e as [options|b|v|text|origin| |]; cbn [step].
  - (* options assigned *)
    unfold setOptions. apply combine_shows.
    intros sub Hsub. unfold shows_filtered in Hinv.
    replace (filteredOptions_sub (set_options_assigned _ st))
      with (filteredOptions_sub st) in Hsub by by destruct st.
    rewrite Hsub in Hinv. apply Hinv.
  - revert Hinv. apply shows_filtered_frame; by destruct st.
  - (* a value from outside *)
    destruct (current_options st) as [options|] eqn:Hcur.
    + destruct (handleIncomingValue_eq st v options Hcur) as (x & _ & ->).
      apply value_shows. revert Hinv.
      apply shows_filtered_frame; destruct st; cbn; try done.
      rewrite <- app_assoc, filtered_lists_snoc2. cbn. by rewrite app_nil_r.
    + rewrite (handleIncomingValue_without_options st v Hcur).
      revert Hinv. apply shows_filtered_frame; destruct st; cbn; try done.
      rewrite filtered_lists_snoc2. cbn. by rewrite app_nil_r.
  - (* an inner edit *)
    assert (Hedit : shows_filtered (edit_committed text st)).
    { revert Hinv. apply shows_filtered_frame; destruct st; cbn; try done.
      rewrite filtered_lists_snoc2. cbn. by rewrite app_nil_r. }
    destruct (innerToOuter_shape (allowNonOptionValue st) (options_assigned st) text)
      as [Hdrop | (v & options & Hemit & Hcur)].
    + rewrite (on_valueChanges_dropped st text Hdrop). by apply value_shows.
    + rewrite <- current_options_last in Hcur.
      rewrite (on_valueChanges_emitted st text v options Hcur Hemit).
      do 2 apply value_shows. revert Hedit.
      apply shows_filtered_frame; destruct st; cbn; try done.
      rewrite <- !app_assoc, !filtered_lists_snoc2. cbn. by rewrite !app_nil_r.
  - (* the focus monitor *)
    destruct origin; cbn; [done|]. unfold handleFocusOut.
    destruct (latestValueLabel_slot st); [|done].
    destruct (bool_decide _); [done|].
    revert Hinv. apply shows_filtered_frame; destruct st; cbn; try done.
    rewrite filtered_lists_snoc2. cbn. by rewrite app_nil_r.
  - (* escape *)
    unfold onEscapePressed, handleFocusOut.
    destruct (latestValueLabel_slot st); [|done].
    destruct (bool_decide _); [done|].
    revert Hinv. apply shows_filtered_frame; destruct st; cbn; try done.
    rewrite filtered_lists_snoc2. cbn. by rewrite app_nil_r.
  - (* the template subscribes *)
    unfold subscribeFilteredOptions.
    destruct (filteredOptions_sub st) eqn:Hsub; [done|].
    cbn zeta. apply combine_shows.
    set (st1 := declareFilteredOptions_distinct null _).
    assert (H1 : ∀ sub, filteredOptions_sub st1 = Some sub →
                        combine_value sub = distinct_last sub).
    { subst st1. destruct st. cbn. by intros sub [= <-]. }
    clearbody st1.
    destruct (innerToOuter_replay st1); [|exact H1].
    rewrite latestValueLabel_eq.
    destruct (current_options st1); [|exact H1]. cbn.
    unfold declareFilteredOptions_distinct.
    destruct st1 as [a h f ov o2i i2o slot [sub1|] lg]; cbn in *; [|exact H1].
    destruct (bool_decide _); [exact H1|].
    cbn. by intros sub [= <-].
Qed.

Lemma combine_sub st :
  filteredOptions_sub (declareFilteredOptions_combine st) = filteredOptions_sub st.
Proof.
  unfold declareFilteredOptions_combine.
  destruct st as [a h f ov o2i i2o slot [[dl [cv|]]|] lg]; cbn; try done.
  by destruct (current_options _).
Qed.

Lemma value_keeps_sub x st :
  filteredOptions_sub st ≠ None →
  filteredOptions_sub (declareFilteredOptions_value x st) ≠ None.
Proof.
  intros Hsub. unfold declareFilteredOptions_value.
  destruct (filteredOptions_sub st) as [sub|] eqn:Hs; [|done].
  destruct (bool_decide _) eqn:Hd; [by rewrite Hs|].
  rewrite combine_sub. unfold declareFilteredOptions_distinct.
  rewrite Hs, Hd. by destruct st.
Qed.

Lemma run_shows events st : shows_filtered st → shows_filtered (run st events).
Proof.
  revert st. induction events as [|e events IH]; intros st Hinv; [done|].
  rewrite run_cons. by apply IH, step_shows.
Qed.

(** X12: the list shown follows the text. In every state a fresh
    component can reach, the list last handed to the template is the
    filter of the current options by the active text; and once the
    template is subscribed and an option set is current, an inner edit
    leaves the filter of the current options by the edited text as the
    list shown. *)
Theorem shown_list_follows_text events :
  let st := run initial events in
  shows_filtered st
  ∧ ∀ text options,
      filteredOptions_sub st ≠ None →
      current_options st = Some options →
      last (filtered_lists (log (step st (InnerEdit text))))
      = Some (filterOptions options text).
Proof.
  cbn zeta.
  assert (Hinv : shows_filtered (run initial events)) by by apply run_shows.
  split; [done|].
  set (st := run initial events) in *.
  intros text options Hsub Hcur.
  pose proof (step_shows st (InnerEdit text) Hinv) as Hinv'.
  destruct (step_effects st (InnerEdit text)) as (Ho & _).
  assert (Hcur' : current_options (step st (InnerEdit text)) = Some options).
  { rewrite current_options_last, Ho. cbn. rewrite app_nil_r.
    by rewrite <- current_options_last. }
  assert (Hd : ∃ sub, filteredOptions_sub (step st (InnerEdit text)) = Some sub
                      ∧ distinct_last sub = Some text).
  { assert (Hedit : filteredOptions_sub (edit_committed text st) ≠ None)
      by by destruct st.
    assert (Hboth : filteredOptions_sub (step st (InnerEdit text)) ≠ None
                    ∧ deduplicated text (step st (InnerEdit text))).
    { cbn [step].
      destruct (innerToOuter_shape (allowNonOptionValue st) (options_assigned st) text)
        as [Hdrop | (v & options' & Hemit & Hcur2)].
      - rewrite (on_valueChanges_dropped st text Hdrop).
        split; [by apply value_keeps_sub|].
        apply declareFilteredOptions_value_deduplicated.
      - rewrite <- current_options_last in Hcur2.
        rewrite (on_valueChanges_emitted st text v options' Hcur2 Hemit).
        split; [|apply declareFilteredOptions_value_deduplicated].
        do 2 apply value_keeps_sub. by destruct st. }
    destruct Hboth as [Hsome Hdd]. unfold deduplicated in Hdd.
    destruct (filteredOptions_sub (step st (InnerEdit text))) as [sub|];
      [by exists sub|done]. }
  destruct Hd as (sub & Hsub' & Hdl).
  unfold shows_filtered in Hinv'. rewrite Hsub' in Hinv'.
  destruct Hinv' as [Heq Hlast].
  apply Hlast; [by rewrite Heq|done].
Qed.

End RunFacts.

(** ** More on [concatLatestFrom] *)

Section RxMoreFacts.
Import Rx Timeline.
Context {V A : Type}.

(** X13: for one primary value the operator emits at most one tuple; the
    tuple carries that very value and one secondary value for each
    observable the factory returned. *)
Theorem concatLatestFrom_one_tuple_per_value
    (factory : V → Factory (Source A)) (v : V) (out : V * list A) :
  out ∈ concatLatestFrom factory v →
  concatLatestFrom factory v = [out]
  ∧ out.1 = v
  ∧ length out.2 = length (observablesAsArray (factory v)).
Proof.
  unfold concatLatestFrom. rewrite of_withLatestFrom_eq.
  destruct (mapM slot_after_subscribe _) as [latest|] eqn:Hm;
    [|by intros ?%elem_of_nil].
  intros Hin. apply list_elem_of_singleton in Hin as ->.
  split; [done|]. split; [done|]. cbn.
  apply mapM_Some in Hm. symmetry. by eapply Forall2_length.
Qed.

(** X14: the operator keeps the order of the primary stream and makes
    nothing up: over any timeline the primary values of the tuples
    emitted are, in the same order, among the primary values that
    arrived. *)
Theorem concatLatestFrom_keeps_order
    (factory : V → Factory nat) (store : list (Source A))
    (events : list (Event V A)) :
  (run factory store events).*1 `sublist_of` primaries events.
Proof.
  revert store. induction events as [|[v|i a] events IH]; intros store; cbn.
  - constructor.
  - rewrite fmap_app.
    unfold concatLatestFrom. rewrite of_withLatestFrom_eq.
    destruct (mapM slot_after_subscribe _); cbn.
    + constructor. apply IH.
    + apply sublist_cons. apply IH.
  - apply IH.
Qed.

End RxMoreFacts.

(** ** More on the translations and the filter *)

Section TranslationMoreFacts.
Import Js Autocomplete.
Implicit Types (options : list AutocompleteOption) (o : AutocompleteOption).

(** X15: the two translations undo each other on the options. With a
    current option set whose labels and values are unique and free values
    not allowed, an option's value becomes its label on the way in and
    that label becomes the value again on the way out, and the other way
    round. *)
Theorem translations_round_trip assigned options o :
  last assigned = Some options →
  NoDup (map label options) →
  NoDup (map value options) →
  o ∈ options →
  flat_map (innerToOuter false assigned)
    (outerToInner false assigned (str (value o))) = [str (value o)]
  ∧ flat_map (outerToInner false assigned)
      (innerToOuter false assigned (str (label o))) = [str (label o)].
Proof.
  intros Hcur Hlab Hval Hin.
  assert (Hin_ : outerToInner false assigned (str (value o)) = [str (label o)]).
  { rewrite outerToInner_eq, Hcur.
    pose proof (labelOf_unique options o Hval Hin) as Hl.
    unfold labelOf in Hl. destruct (List.find _ options); congruence. }
  pose proof (innerToOuter_unique_label assigned options o Hcur Hlab Hin) as Hout.
  rewrite Hin_, Hout. cbn. by rewrite Hin_, Hout.
Qed.

Lemma startsWith_prefix (s t : string) :
  startsWith s t = true ↔ ∃ after : string, s = (t ++ after)%string.
Proof.
  revert s. induction t as [|b t IH]; intros s.
  - split; [|by destruct s]. intros _. by exists s.
  - destruct s as [|a s]; cbn.
    + split; [done|]. by intros [after Heq].
    + rewrite andb_true_iff, bool_decide_eq_true, IH. split.
      * intros (-> & after & ->). by exists after.
      * intros (after & [= -> ->]). split; [done|]. by exists after.
Qed.

Lemma includes_occurs (s t : string) :
  includes s t = true
  ↔ ∃ before after : string, s = (before ++ t ++ after)%string.
Proof.
  induction s as [|a s IH].
  - cbn [includes]. rewrite orb_false_r, startsWith_prefix. split.
    + intros [after Heq]. by exists EmptyString, after.
    + intros (before & after & Heq). destruct before; [|done].
      by exists after.
  - cbn [includes]. rewrite orb_true_iff, startsWith_prefix, IH. split.
    + intros [[after Heq] | (before & after & Heq)].
      * by exists EmptyString, after.
      * exists (String a before), after. cbn. by rewrite Heq.
    + intros (before & after & Heq). destruct before as [|a' before].
      * left. by exists after.
      * right. cbn in Heq. injection Heq as <- ->. by exists before, after.
Qed.

Lemma string_app_assoc (a b c : string) :
  ((a ++ b) ++ c = a ++ (b ++ c))%string.
Proof.
  induction a as [|x a IH]; [done|].
  change (String x ((a ++ b) ++ c) = String x (a ++ (b ++ c)))%string.
  by rewrite IH.
Qed.

Lemma includes_trans (a b c : string) :
  includes a b = true → includes b c = true → includes a c = true.
Proof.
  rewrite !includes_occurs.
  intros (p1 & q1 & ->) (p2 & q2 & ->).
  exists (p1 ++ p2)%string, (q2 ++ q1)%string.
  by rewrite !string_app_assoc.
Qed.

Lemma filter_sublist_of_weaker {B} (p q : B → bool) (l : list B) :
  (∀ x, p x = true → q x = true) →
  List.filter p l `sublist_of` List.filter q l.
Proof.
  intros Hpq. induction l as [|x l IH]; cbn; [constructor|].
  destruct (p x) eqn:Hp.
  - rewrite (Hpq x Hp). by constructor.
  - destruct (q x); [by apply sublist_cons|done].
Qed.

(** X16: typing on narrows the list. When a text contains an earlier
    text, letter case aside, the options it keeps are among those the
    earlier text kept, in the same order: no option comes back by typing
    more. The empty text keeps every option. *)
Theorem filterOptions_narrows options (earlier later : string) :
  includes (toLowerCase later) (toLowerCase earlier) = true →
  filterOptions options (str later) `sublist_of` filterOptions options (str earlier)
  ∧ filterOptions options (str "") = options.
Proof.
  intros Hinc. split.
  - apply filter_sublist_of_weaker. intros x Hx.
    by apply (includes_trans _ _ _ Hx).
  - cbn. induction options as [|x l IH]; cbn; [done|].
    replace (includes (toLowerCase (label x)) "") with true
      by by destruct (toLowerCase (label x)).
    by rewrite IH.
Qed.

End TranslationMoreFacts.

(** ** More on method interception *)

Section PatchMoreFacts.
Import Patch.
Context {World Val : Type} (undefined : Val).
Implicit Types (methods : gmap string (Function World Val)).
Implicit Types (fn method : Function World Val).

(** X17: patches stack. Patching a method twice makes an invocation run
    the second callback, then the first, then the original method bound
    to the target, each with the same arguments and each only when the
    one before returned; the invocation returns [undefined]. *)
Theorem patches_stack obj methods methodName fn1 fn2 method :
  methods !! methodName = Some method →
  ∃ once twice,
    patchObjectMethodWith undefined obj methods methodName fn1 = Some once
    ∧ patchObjectMethodWith undefined obj once methodName fn2 = Some twice
    ∧ ∀ receiver args w,
        invoke receiver twice methodName args w
        = Some match fn2 None args w with
               | Return _ w1 =>
                   match fn1 None args w1 with
                   | Return _ w2 =>
                       match method (Some obj) args w2 with
                       | Return _ w3 => Return undefined w3
                       | Throw e w3 => Throw e w3
                       end
                   | Throw e w2 => Throw e w2
                   end
               | Throw e w1 => Throw e w1
               end.
Proof.
  intros Hm. unfold patchObjectMethodWith. rewrite Hm.
  eexists _, _. split; [reflexivity|].
  rewrite lookup_insert_eq. split; [reflexivity|].
  intros receiver args w. unfold invoke. rewrite lookup_insert_eq.
  unfold updatedFn, bind.
  destruct (fn2 None args w) as [r1 w1|e1 w1]; [|done].
  destruct (fn1 None args w1) as [r2 w2|e2 w2]; [|done].
  by destruct (method (Some obj) args w2).
Qed.

Lemma patch_keeps_names obj methods methodName fn patched :
  patchObjectMethodWith undefined obj methods methodName fn = Some patched →
  is_Some (methods !! methodName)
  ∧ (∀ name, is_Some (patched !! name) ↔ is_Some (methods !! name))
  ∧ (∀ name, name ≠ methodName → patched !! name = methods !! name).
Proof.
  unfold patchObjectMethodWith.
  destruct (methods !! methodName) as [m|] eqn:Hm; [|done].
  intros [= <-]. split; [done|]. split.
  - intros name. destruct (decide (name = methodName)) as [->|Hne].
    + rewrite lookup_insert_eq, Hm. by split.
    + by rewrite lookup_insert_ne.
  - intros name Hne. by rewrite lookup_insert_ne.
Qed.

End PatchMoreFacts.

Section ExtractFacts.
Import Patch Sync.

Lemma extract_keeps_unlisted control table methods next name :
  name ∉ methods.*1 →
  (extractMethodsIntoObservable control table methods next).1 !! name
  = table !! name.
Proof.
  revert table. induction methods as [|[methodName emitValue] methods IH];
    intros table Hnot; cbn; [done|].
  cbn in Hnot. apply not_elem_of_cons in Hnot as [Hne Hnot].
  destruct (patchObjectMethodWith _ _ _ _ _) as [table'|] eqn:Hp; [|done].
  apply patch_keeps_names in Hp as (_ & _ & Hother).
  by rewrite IH, Hother.
Qed.

(** X18: [extractMethodsIntoObservable] patches every listed method
    exactly when the control has them all, and a patched method passes
    its emit value to the subject before it does what it did. With all
    listed methods there (their names distinct, as the keys of an object
    are), calling a listed method afterwards first hands the value listed
    for it to the subscriber of the subject, then runs the original
    method bound to the control with the same arguments, and returns
    [undefined]. A listed method that is missing stops the loop. Either
    way the control keeps its method names, and the methods that are not
    listed are left as they were. *)
Theorem extractMethodsIntoObservable_needs_all_methods
    control table methods next :
  let result := extractMethodsIntoObservable control table methods next in
  (result.2 = true ↔ Forall (λ entry, is_Some (table !! entry.1)) methods)
  ∧ (NoDup methods.*1 → result.2 = true →
     ∀ methodName emitValue, (methodName, emitValue) ∈ methods →
       ∃ original,
         table !! methodName = Some original
         ∧ ∀ receiver args w,
             invoke receiver result.1 methodName args w
             = Some match next emitValue w with
                    | Return _ w1 =>
                        match original (Some control) args w1 with
                        | Return _ w2 => Return undefined w2
                        | Throw e w2 => Throw e w2
                        end
                    | Throw e w1 => Throw e w1
                    end)
  ∧ (∀ name, is_Some (result.1 !! name) ↔ is_Some (table !! name))
  ∧ (∀ name, name ∉ methods.*1 → result.1 !! name = table !! name).
Proof.
  cbn zeta. split; [|split; [|split]].
  - revert table. induction methods as [|[methodName emitValue] methods IH];
      intros table; cbn.
    + split; [constructor|done].
    + destruct (patchObjectMethodWith _ _ _ _ _) as [table'|] eqn:Hp.
      * apply patch_keeps_names in Hp as (Hsome & Hnames & _).
        rewrite IH, Forall_cons. cbn. split.
        -- intros Hall. split; [done|].
           eapply Forall_impl; [exact Hall|]. intros entry. by rewrite Hnames.
        -- intros [_ Hall].
           eapply Forall_impl; [exact Hall|]. intros entry. by rewrite Hnames.
      * split; [done|]. intros Hall. apply Forall_cons in Hall as [Hsome _].
        cbn in Hsome. unfold patchObjectMethodWith in Hp.
        destruct (table !! methodName); [done|by destruct Hsome].
  - revert table. induction methods as [|[m e] methods IH];
      intros table Hnd Hdone methodName emitValue Hin;
      [by apply elem_of_nil in Hin|].
    cbn in Hnd. apply NoDup_cons in Hnd as [Hm Hnd].
    cbn in Hdone |- *.
    destruct (patchObjectMethodWith _ _ _ _ _) as [table'|] eqn:Hp; [|done].
    unfold patchObjectMethodWith in Hp.
    destruct (table !! m) as [method|] eqn:Hlook; [|done].
    injection Hp as <-.
    apply elem_of_cons in Hin as [[= -> ->] | Hin].
    + exists method. split; [done|]. intros receiver args w.
      unfold invoke. rewrite extract_keeps_unlisted by done.
      rewrite lookup_insert_eq. unfold updatedFn, bind.
      by destruct (next e w).
    + assert (Hne : methodName ≠ m).
      { intros ->. apply Hm. apply list_elem_of_fmap.
        by exists (m, emitValue). }
      destruct (IH _ Hnd Hdone methodName emitValue Hin)
        as (original & Horig & Hcall).
      rewrite lookup_insert_ne in Horig by done.
      by exists original.
  - revert table. induction methods as [|[methodName emitValue] methods IH];
      intros table name; cbn; [done|].
    destruct (patchObjectMethodWith _ _ _ _ _) as [table'|] eqn:Hp; [|done].
    apply patch_keeps_names in Hp as (_ & Hnames & _).
    by rewrite IH, Hnames.
  - intros name. apply extract_keeps_unlisted.
Qed.

End ExtractFacts.

(** ** Enabling, disabling and the set up *)

Section DisablingFacts.
Import Wrapped Disabling.
Implicit Types (c : Component).

Lemma outer_status_disabled c errs :
  SyncOuterToInnerErrors ∈ subscriptions c →
  fc_disabled (formControl c) = true →
  let c' := step c (OuterStatus errs) in
  fc_disabled (formControl c') = true
  ∧ fc_errors (formControl c') = fc_errors (formControl c)
  ∧ fc_status (formControl c') = DISABLED
  ∧ fc_validator (formControl c') = Some (syncErrorsValidator errs)
  ∧ subscriptions c' = subscriptions c.
Proof.
  intros Hsub Hdis. cbn zeta. cbn [step]. unfold outer_status. cbn.
  rewrite bool_decide_true by done.
  unfold syncOuterToInnerErrors_tap, updateValueAndValidity. cbn.
  rewrite Hdis. by destruct c.
Qed.

(** X19: a disabled inner control shows no errors, and enabling it brings
    the outer errors back. After [setDisabledState(true)] the inner
    control is disabled without errors and stays so through any series of
    outer status changes; [setDisabledState(false)] then makes it hold
    the errors of the last status change, invalid exactly when there are
    errors. The value of the inner control is never changed, and the
    superclass gets the flag the instance held, not the one asked for. *)
Theorem disabled_control_regains_errors c flag earlier errs :
  SyncOuterToInnerErrors ∈ subscriptions c →
  let disabled := (setDisabledState true flag c).1 in
  let updated := run disabled (map OuterStatus (earlier ++ [errs])) in
  let enabled := (setDisabledState false flag updated).1 in
  fc_status (formControl disabled) = DISABLED
  ∧ fc_errors (formControl disabled) = None
  ∧ fc_status (formControl updated) = DISABLED
  ∧ fc_errors (formControl updated) = None
  ∧ fc_disabled (formControl enabled) = false
  ∧ fc_errors (formControl enabled) = errs
  ∧ fc_status (formControl enabled) = (if errs is Some _ then INVALID else VALID)
  ∧ fc_value (formControl enabled) = fc_value (formControl c)
  ∧ (setDisabledState true flag c).2 = flag
  ∧ (setDisabledState false flag updated).2 = flag.
Proof.
  intros Hsub. cbn zeta.
  set (d := (setDisabledState true flag c).1).
  assert (Hd : SyncOuterToInnerErrors ∈ subscriptions d
               ∧ fc_disabled (formControl d) = true
               ∧ fc_errors (formControl d) = None
               ∧ fc_status (formControl d) = DISABLED
               ∧ fc_value (formControl d) = fc_value (formControl c)).
  { subst d. by destruct c. }
  destruct Hd as (Hs & Hdis & He & Hst & Hv).
  assert (Hrun : ∀ es c0,
            SyncOuterToInnerErrors ∈ subscriptions c0 →
            fc_disabled (formControl c0) = true →
            fc_errors (formControl c0) = None →
            fc_status (formControl c0) = DISABLED →
            let c1 := run c0 (map OuterStatus (es ++ [errs])) in
            fc_disabled (formControl c1) = true
            ∧ fc_errors (formControl c1) = None
            ∧ fc_status (formControl c1) = DISABLED
            ∧ fc_validator (formControl c1) = Some (syncErrorsValidator errs)
            ∧ fc_value (formControl c1) = fc_value (formControl c0)).
  { induction es as [|e es IH]; intros c0 H1 H2 H3 H4; cbn zeta.
    - change (run c0 (map OuterStatus ([] ++ [errs])))
        with (step c0 (OuterStatus errs)).
      destruct (outer_status_disabled c0 errs H1 H2) as (D1 & D2 & D3 & D4 & _).
      repeat split; try congruence.
      cbn [step]. unfold outer_status. cbn. rewrite bool_decide_true by done.
      unfold syncOuterToInnerErrors_tap, updateValueAndValidity. cbn.
      by destruct (fc_disabled (formControl c0)).
    - change (run c0 (map OuterStatus ((e :: es) ++ [errs])))
        with (run (step c0 (OuterStatus e)) (map OuterStatus (es ++ [errs]))).
      destruct (outer_status_disabled c0 e H1 H2) as (D1 & D2 & D3 & D4 & D5).
      destruct (IH (step c0 (OuterStatus e))) as (E1 & E2 & E3 & E4 & E5);
        try congruence.
      repeat split; try done. rewrite E5.
      cbn [step]. unfold outer_status. cbn. rewrite bool_decide_true by done.
      unfold syncOuterToInnerErrors_tap, updateValueAndValidity. cbn.
      by destruct (fc_disabled (formControl c0)). }
  destruct (Hrun earlier d Hs Hdis He Hst) as (U1 & U2 & U3 & U4 & U5).
  set (u := run d (map OuterStatus (earlier ++ [errs]))) in *.
  repeat split; try done.
  all: unfold setDisabledState, enable, updateValueAndValidity; cbn;
    rewrite U4; cbn; unfold syncErrorsValidator; done.
Qed.

Lemma timeout_wraps_once c :
  patched c = [] →
  patched (syncOuterAndInnerControls_timeout c) = []
  ∨ patched (syncOuterAndInnerControls_timeout c) = setup_patches.
Proof.
  intros Hp.
  destruct c as [d [[[] sc er]|] fc subs p n t]; cbn in Hp; subst p;
    try (by left).
  right. by destruct sc.
Qed.

Lemma step_wrapped_at_most_once c e :
  wrapped_at_most_once c → wrapped_at_most_once (step c e).
Proof.
  unfold wrapped_at_most_once.
  intros [[Ht Hp] | [Ht Hp]]; destruct e as [| |ngc|errs]; cbn [step].
  - right. unfold turn. rewrite Ht.
    set (c0 := mkComponent _ _ _ _ _ _ 0).
    assert (Hp0 : patched c0 = []) by done.
    assert (Ht0 : pending_timeouts (syncOuterAndInnerControls_timeout c0) = 0).
    { subst c0. destruct c as [d [[[] [] er]|] fc subs p n t]; done. }
    split; [done|]. by apply timeout_wraps_once.
  - by left.
  - by left.
  - left. unfold outer_status. cbn. destruct (bool_decide _); by destruct c.
  - right. unfold turn. by rewrite Ht.
  - by right.
  - by right.
  - right. unfold outer_status. cbn. destruct (bool_decide _); by destruct c.
Qed.

(** X20: the set up wraps nothing twice. Whatever happens to a newly
    constructed instance (turns of the scheduler, destruction, the outer
    binding settling, status changes), the methods it has wrapped are
    none or the seven of the set up, each once, and at most one timer is
    waiting. *)
Theorem setup_wraps_at_most_once ngc events :
  let c := run (construct ngc) events in
  (patched c = [] ∨ patched c = setup_patches)
  ∧ NoDup (patched c)
  ∧ (pending_timeouts c ≤ 1)%nat.
Proof.
  cbn zeta.
  assert (Hinv : wrapped_at_most_once (run (construct ngc) events)).
  { assert (H0 : wrapped_at_most_once (construct ngc)) by by left.
    revert H0. generalize (construct ngc).
    induction events as [|e events IH]; intros c Hc; [done|].
    apply (IH (step c e)). by apply step_wrapped_at_most_once. }
  destruct Hinv as [[Ht Hp] | [Ht [Hp | Hp]]]; rewrite Ht, Hp;
    (split; [auto|split; [|lia]]); try apply NoDup_nil_2.
  unfold setup_patches.
  repeat (apply NoDup_cons_2;
          [rewrite ?not_elem_of_cons; repeat split; try discriminate;
           apply not_elem_of_nil|]).
  apply NoDup_nil_2.
Qed.

End DisablingFacts.

(** ** The logging operator *)

Section LogFacts.
Import Log.

(** X21: [log$] leaves the stream as it is and writes one line per
    notification passed on: the label first when it is truthy (a label
    such as 0 or the empty string is left out), then the event name, then,
    except for a completion, the data, through the predicate function when
    there is one. Nothing is passed on or written after an error or a
    completion. *)
Theorem log_passes_on_and_writes_a_line_each info predicateFn source :
  (log_ info predicateFn source).2 = delivered source
  ∧ (log_ info predicateFn source).1
    = map (line_for info predicateFn) (delivered source)
  ∧ (length (log_ info predicateFn source).1 ≤ length source)%nat.
Proof.
  induction source as [|[x|x|] rest IH]; cbn.
  - done.
  - destruct (log_ info predicateFn rest) as [lines passed]. cbn in *.
    destruct IH as (-> & -> & Hlen).
    split; [done|]. split; [|lia]. f_equal.
    unfold log, line_for. cbn. by destruct (truthy info), predicateFn.
  - split; [done|]. split; [|lia].
    unfold log, line_for. cbn. by destruct (truthy info), predicateFn.
  - split; [done|]. split; [|lia].
    unfold log, line_for. cbn. by destruct (truthy info).
Qed.

End LogFacts.

(** ** The properties above at concrete inputs *)

Section SyncWitnesses.
Import Patch Sync.

Lemma touched_mirrored_after_host_calls_witness :
  ∃ w',
    perform_all 3
      [InnerCall "markAsTouched" []; OuterCall "markAsUntouched" []] world0
    = Return undefined w'
    ∧ inner_touched w' = outer_touched w'
    ∧ touched_mirrored w'.
Proof.
  apply (touched_mirrored_after_host_calls 0
           [InnerCall "markAsTouched" []; OuterCall "markAsUntouched" []] world0).
  - intros b Hb. discriminate Hb.
  - constructor; [right; right; reflexivity|].
    constructor; [right; left; reflexivity|]. constructor.
  - discriminate.
Defined.

Lemma extractMethodsIntoObservable_needs_all_methods_witness :
  let result :=
    extractMethodsIntoObservable outer (control_methods nothing_seen)
      [("markAsTouched", true); ("markAsUntouched", false)]
      (fun b w => Return undefined (set_touched_last b w)) in
  invoke outer result.1 "markAsUntouched" [] world0
  = Some (Return undefined
            (set_touched outer false (set_touched_last false world0)))
  ∧ result.1 !! "markAsDirty" = control_methods nothing_seen !! "markAsDirty".
Proof.
  intros result.
  destruct (extractMethodsIntoObservable_needs_all_methods outer
              (control_methods nothing_seen)
              [("markAsTouched", true); ("markAsUntouched", false)]
              (fun b w => Return undefined (set_touched_last b w)))
    as (_ & Hpatched & _ & Hother).
  split.
  - destruct (Hpatched ltac:(decide_by_computing) eq_refl "markAsUntouched" false)
      as (original & Horig & Hcall).
    + apply list_elem_of_further, list_elem_of_here.
    + rewrite Hcall. injection Horig as <-. reflexivity.
  - apply Hother. cbn.
    rewrite !not_elem_of_cons. repeat split; try discriminate.
    apply not_elem_of_nil.
Defined.

End SyncWitnesses.

Section RunWitnesses.
Import Js Autocomplete Runs.

Lemma no_echo_witness :
  outgoing (log (run initial [SetOptions options; HandleIncomingValue (str "ID");
                              FocusMonitor None]))
  = outgoing (log initial)
  ∧ writes (log (run initial [SetOptions options; InnerEdit (str "Indonesia")]))
    = writes (log initial).
Proof.
  split.
  - apply (no_echo [SetOptions options; HandleIncomingValue (str "ID");
                    FocusMonitor None] initial). reflexivity.
  - apply (no_echo [SetOptions options; InnerEdit (str "Indonesia")] initial).
    reflexivity.
Defined.

Lemma strict_runs_emit_option_values_witness :
  let st := run initial [SetOptions options] in
  str "ID" ∈ outgoing (log st)
  ∨ ∃ assigned o,
      assigned ∈ options_assigned (run st [InnerEdit (str "Indonesia")])
      ∧ o ∈ assigned ∧ str "ID" = str (value o).
Proof.
  intros st.
  apply (strict_runs_emit_option_values [InnerEdit (str "Indonesia")] st (str "ID"));
    [reflexivity|reflexivity|].
  vm_compute. apply list_elem_of_here.
Defined.

Lemma handleFocusOut_idempotent_witness :
  let st := run initial [SetOptions options; HandleIncomingValue (str "ID");
                         InnerEdit (str "qwe")] in
  formControl_value (handleFocusOut st) = str "Indonesia".
Proof.
  intros st.
  destruct (handleFocusOut_idempotent st) as (_ & _ & _ & Hlabel).
  apply Hlabel. reflexivity.
Defined.

Lemma value_before_options_is_not_shown_witness :
  let st' := run initial [HandleIncomingValue (str "ID"); SetOptions options] in
  outer_value st' = str "ID"
  ∧ current_options st' = Some options
  ∧ formControl_value st' = null
  ∧ writes (log st') = []
  ∧ latestValueLabel_slot st' = None
  ∧ step st' EscapePressed = st'.
Proof.
  intros st'.
  destruct (value_before_options_is_not_shown initial (str "ID") options
              EscapePressed eq_refl (or_introl eq_refl))
    as (H1 & H2 & H3 & H4 & H5 & H6).
  split; [exact H1|]. split; [exact H2|]. split; [exact H3|].
  split; [exact H4|]. split; [exact H5|]. apply H6. reflexivity.
Defined.

Lemma shown_list_follows_text_witness :
  let st := run initial [SetOptions options; SubscribeFilteredOptions] in
  last (filtered_lists (log (step st (InnerEdit (str "indo")))))
  = Some (filterOptions options (str "indo")).
Proof.
  intros st.
  destruct (shown_list_follows_text [SetOptions options; SubscribeFilteredOptions])
    as (_ & Hedit).
  apply Hedit; [discriminate|reflexivity].
Defined.

Lemma translations_round_trip_witness :
  flat_map (innerToOuter false [options])
    (outerToInner false [options] (str "ID")) = [str "ID"]
  ∧ flat_map (outerToInner false [options])
      (innerToOuter false [options] (str "Indonesia")) = [str "Indonesia"].
Proof.
  apply (translations_round_trip [options] options idOption eq_refl);
    [decide_by_computing|decide_by_computing|].
  do 2 apply list_elem_of_further. apply list_elem_of_here.
Defined.

Lemma filterOptions_narrows_witness :
  filterOptions options (str "Indo") `sublist_of` filterOptions options (str "IN")
  ∧ filterOptions options (str "") = options.
Proof. apply (filterOptions_narrows options "IN" "Indo"). reflexivity. Defined.

End RunWitnesses.

Section MoreWitnesses.
Import Rx Patch Wrapped Disabling.

Lemma concatLatestFrom_one_tuple_per_value_witness :
  let factory := fun _ : nat =>
    Many [mkSource (ReplaySubject 1) [1; 2]; mkSource (ReplaySubject 2) [3]] in
  concatLatestFrom factory 7 = [(7, [2; 3])]
  ∧ (7, [2; 3]).1 = 7
  ∧ length (7, [2; 3]).2 = length (observablesAsArray (factory 7)).
Proof.
  intros factory.
  apply (concatLatestFrom_one_tuple_per_value factory 7 (7, [2; 3])).
  vm_compute. apply list_elem_of_here.
Defined.

Lemma patches_stack_witness :
  ∃ once twice,
    patchObjectMethodWith 0 1 demo_methods "push" (traced "first" 8) = Some once
    ∧ patchObjectMethodWith 0 1 once "push" (traced "second" 9) = Some twice
    ∧ invoke 2 twice "push" [3] []
      = Some (Return 0 ["second"; "first"; "original@obj"]).
Proof.
  destruct (patches_stack 0 1 demo_methods "push" (traced "first" 8)
              (traced "second" 9) (traced "original" 7) eq_refl)
    as (once & twice & H1 & H2 & Hinvoke).
  exists once, twice. split; [exact H1|]. split; [exact H2|].
  rewrite Hinvoke. reflexivity.
Defined.

Lemma disabled_control_regains_errors_witness :
  let c := Wrapped.run (construct (Some (mkNgControl true true None))) [Turn] in
  let required : option ValidationErrors := Some {[ "required" := true ]} in
  let disabled := (setDisabledState true false c).1 in
  let updated := Wrapped.run disabled (map OuterStatus [None; required]) in
  let enabled := (setDisabledState false false updated).1 in
  fc_errors (formControl updated) = None
  ∧ fc_errors (formControl enabled) = required
  ∧ fc_status (formControl enabled) = INVALID.
Proof.
  intros c required disabled updated enabled.
  destruct (disabled_control_regains_errors c false [None] required)
    as (_ & _ & _ & H4 & _ & H6 & H7 & _).
  - apply list_elem_of_further, list_elem_of_further, list_elem_of_here.
  - split; [exact H4|]. split; [exact H6|exact H7].
Defined.

End MoreWitnesses.
